(** * Gas playground client: the call pipeline of [src/app/page.tsx]

    A shallow embedding of the page component [IndexPage] and of the log
    section of [ResultDisplay]: the call parser (the regular expression of
    the second effect), the compile lane, the execution lane with its
    encoder and decoder loops, the call-list editing handler, and the
    event-driven state machine that React, the timers and the network
    drive.

    JavaScript strings are sequences of UTF-16 code units, modelled as
    lists of [N]; arrays are lists; [undefined] is [None]; an exception is
    the [Throw] outcome of a completion. *)

From Stdlib Require Import NArith String Ascii Lia.
From stdpp Require Import base option list gmap.

Local Open Scope N_scope.

(** ** JavaScript strings *)

Abbreviation jsstring := (list N).

(** The code units of an ASCII literal. *)
Definition js (s : string) : jsstring :=
  N_of_ascii <$> list_ascii_of_string s.

Definition LPAREN : N := 40.
Definition RPAREN : N := 41.
Definition COMMA : N := 44.

(** [\w] of a regular expression without the [u] and [i] flags:
    [A-Za-z0-9_]. *)
Definition isWordChar (c : N) : bool :=
  ((48 <=? c) && (c <=? 57)) || ((65 <=? c) && (c <=? 90))
  || (c =? 95) || ((97 <=? c) && (c <=? 122)).

(** ECMAScript LineTerminator: LF, CR, LS, PS.  The dot of a regular
    expression without the [s] flag matches every code unit but these. *)
Definition isLineTerminator (c : N) : bool :=
  (c =? 10) || (c =? 13) || (c =? 8232) || (c =? 8233).

Definition isDotChar (c : N) : bool := negb (isLineTerminator c).

(** ECMAScript WhiteSpace (TAB, VT, FF, SP, NBSP, ZWNBSP and the space
    separators) together with LineTerminator: what [trim] strips. *)
Definition isTrimChar (c : N) : bool :=
  (c =? 9) || (c =? 11) || (c =? 12) || (c =? 32) || (c =? 160)
  || (c =? 5760) || ((8192 <=? c) && (c <=? 8202)) || (c =? 8239)
  || (c =? 8287) || (c =? 12288) || (c =? 65279) || isLineTerminator c.

(** The longest prefix whose code units satisfy [p], and the rest. *)
Fixpoint span (p : N -> bool) (s : jsstring) : jsstring * jsstring :=
  match s with
  | [] => ([], [])
  | c :: s' =>
      if p c then let '(a, b) := span p s' in (c :: a, b) else ([], s)
  end.

Fixpoint dropWhile (p : N -> bool) (s : jsstring) : jsstring :=
  match s with
  | [] => []
  | c :: s' => if p c then dropWhile p s' else s
  end.

(** [String.prototype.trim]. *)
Definition trim (s : jsstring) : jsstring :=
  rev (dropWhile isTrimChar (rev (dropWhile isTrimChar s))).

(** [split] at the comma: the pieces between the commas, so that the empty
    string splits into one empty piece. *)
Fixpoint split_comma (s : jsstring) : list jsstring :=
  match s with
  | [] => [[]]
  | c :: s' =>
      if c =? COMMA then [] :: split_comma s'
      else match split_comma s' with
           | [] => [[c]]
           | piece :: pieces => (c :: piece) :: pieces
           end
  end.

Definition nonEmpty (s : jsstring) : bool :=
  match s with [] => false | _ => true end.

(** The position of the last [c] in [s]. *)
Fixpoint lastIndexOf (c : N) (s : jsstring) : option nat :=
  match s with
  | [] => None
  | d :: s' =>
      match lastIndexOf c s' with
      | Some k => Some (S k)
      | None => if d =? c then Some 0%nat else None
      end
  end.

(** ** The call parser *)

(** One attempt of the pattern of the call parser at the start of [s].
    The pattern is: a group of one or more word characters, an opening
    parenthesis, a group of any number of dot characters, a closing
    parenthesis.  The greedy
    word group takes the whole run of word characters (a shorter run is
    followed by a word character, never by the parenthesis); the greedy
    dot group takes every code unit up to the next line terminator and backs
    off to the last closing parenthesis in that stretch.  The result is
    the pair of capture groups. *)
Definition match_here (s : jsstring) : option (jsstring * jsstring) :=
  match span isWordChar s with
  | ((_ :: _) as name, c :: rest) =>
      if c =? LPAREN then
        let stretch := (span isDotChar rest).1 in
        match lastIndexOf RPAREN stretch with
        | Some k => Some (name, take k stretch)
        | None => None
        end
      else None
  | _ => None
  end.

(** [line.match] with that pattern: without the [g] and [y] flags the
    attempt is made at position 0, then 1, and so on; the first success
    is the match, [null] is [None]. *)
Fixpoint regex_match (line : jsstring) : option (jsstring * jsstring) :=
  match line with
  | [] => None
  | _ :: line' =>
      match match_here line with
      | Some groups => Some groups
      | None => regex_match line'
      end
  end.

Record ParsedCall := mkCall { name : jsstring; args : list jsstring }.

(** The second group split at the commas, every piece trimmed, the
    empty pieces filtered out. *)
Definition split_args (group2 : jsstring) : list jsstring :=
  filter (fun arg => nonEmpty arg = true) (trim <$> split_comma group2).

(** The body of the [forEach] callback: what one line pushes on [calls]. *)
Definition parse_line (calls : list ParsedCall) (line : jsstring)
  : list ParsedCall :=
  match regex_match line with
  | Some (name, group2) => calls ++ [mkCall name (split_args group2)]
  | None => calls
  end.

(** The parsing pass of the second effect over [functionCalls]. *)
Definition parse_calls (functionCalls : list jsstring) : list ParsedCall :=
  foldl parse_line [] functionCalls.

(** The pattern of the call parser as a relation: [line] holds, after
    [pre], an identifier [name] made of word characters, an opening
    parenthesis, the contents [group2] free of line terminators, and a
    closing parenthesis. *)
Definition occurs_at (line pre name group2 post : jsstring) : Prop :=
  line = pre ++ name ++ LPAREN :: group2 ++ RPAREN :: post
  ∧ name ≠ []
  ∧ Forall (fun c => isWordChar c = true) name
  ∧ Forall (fun c => isDotChar c = true) group2.

Definition matches_pattern (line : jsstring) : Prop :=
  ∃ pre name group2 post, occurs_at line pre name group2 post.

(** The occurrence the matcher prefers among all: none starts further
    left, and of those that start at the same place none has other
    contents of the identifier group or longer contents of the
    parentheses. *)
Definition preferred (line pre name group2 : jsstring) : Prop :=
  ∀ pre' name' group2' post',
    occurs_at line pre' name' group2' post' →
    (length pre ≤ length pre')%nat
    ∧ (pre' = pre → name' = name ∧ (length group2' ≤ length group2)%nat).

(** ** Completions *)

(** A value thrown in JavaScript.  [axios.isAxiosError] holds of the
    first constructor only; its [response] is present when the server
    answered with an error status and absent when no answer was received
    (network failure).  [dataMessage] is [response.data.message]. *)
Record ErrorResponse := mkErrorResponse { dataMessage : option jsstring }.

Inductive JsError :=
| AxiosError (response : option ErrorResponse)
| OtherError (description : jsstring).

(** How an expression completes: with a value, or by throwing. *)
Inductive Completion (A : Type) :=
| Normal (a : A)
| Throw (e : JsError).
Arguments Normal {A} a.
Arguments Throw {A} e.

#[global] Instance Completion_ret : MRet Completion := @Normal.
#[global] Instance Completion_bind : MBind Completion :=
  fun A B k m => match m with Normal a => k a | Throw e => Throw e end.

(** ** Messages of the two services *)

Inductive ErrorType := Error | Warning.

Module SolcError.
Record details := mkDetails
  { line : option N; column : option N; codeSnippet : option jsstring }.
Record t := mk
  { errorType : ErrorType; message : jsstring; details_of : details }.
Definition noDetails : details := mkDetails None None None.
End SolcError.

Module ContractData.
Record t := mk { name : jsstring; abi : jsstring; bytecode : jsstring }.
End ContractData.

Module SolcCompileResponse.
Record t := mk { data : list ContractData.t; errors : list SolcError.t }.
End SolcCompileResponse.

Module RawLog.
Record t := mk
  { address : jsstring; topics : list jsstring; data : jsstring }.
End RawLog.

Module ExecutionResponse.
Record t {Traces : Type} := mk
  { exitReason : jsstring;
    reverted : bool;
    result : jsstring;
    gasUsed : jsstring;
    logs : list RawLog.t;
    traces : Traces }.
Arguments t : clear implicits.
Arguments mk {Traces}.
End ExecutionResponse.

(** What [decodeEventLog] returns: the arguments are an array when the
    event declares unnamed parameters, an object when it names them, and
    absent when it has none. *)
Inductive LogArgs (Value : Type) :=
| ArgsArray (values : list Value)
| ArgsObject (entries : list (jsstring * Value))
| ArgsAbsent.
Arguments ArgsArray {Value} values.
Arguments ArgsObject {Value} entries.
Arguments ArgsAbsent {Value}.

Module DecodedLog.
Record t {Value : Type} := mk
  { eventName : jsstring; args : LogArgs Value }.
Arguments t : clear implicits.
Arguments mk {Value}.
End DecodedLog.

(** The element type of the [result] state.  [rawLogs] is read by
    [ResultDisplay] only; the object literal that [handleFunctionCalls]
    pushes has no such property. *)
Module FunctionCallResult.
Record t {Value Traces : Type} := mk
  { call : jsstring;
    gasUsed : jsstring;
    response : option jsstring;
    logs : option (list (DecodedLog.t Value));
    rawLogs : option (list RawLog.t);
    traces : Traces }.
Arguments t : clear implicits.
Arguments mk {Value Traces}.
End FunctionCallResult.

(** ** The libraries the page calls

    [viem]'s interface functions, its value type and [JSON.parse] are not
    code of this repository: the page is modelled over any implementation
    of them.  Each may throw.  [decodeFunctionResult] returns [undefined]
    ([None]) for a function that declares no output.  [Traces] is the
    type of the [traces] property, which the page only copies. *)
Class Externals := {
  AbiItem : Type;
  Value : Type;
  Traces : Type;
  JSON_parse : jsstring -> Completion (list AbiItem);
  encodeFunctionData :
    list AbiItem -> jsstring -> list jsstring -> Completion jsstring;
  decodeFunctionResult :
    list AbiItem -> jsstring -> jsstring -> Completion (option Value);
  decodeEventLog :
    list AbiItem -> jsstring -> list jsstring
    -> Completion (DecodedLog.t Value);
  String_of : Value -> jsstring
}.

Inductive LogEntry :=
| ConsoleLog (text : jsstring)
| ConsoleError (label : jsstring) (e : JsError).

Abbreviation Abi := (list AbiItem).
Abbreviation CallResult := (FunctionCallResult.t Value Traces).
Abbreviation Response := (ExecutionResponse.t Traces).

(** ** The page *)

Section Page.
Context `{Externals}.

(** The six [useState] cells of [IndexPage], and the console. *)
Record Page := mkPage {
  solidityCode : jsstring;
  functionCalls : list jsstring;
  bytecode : jsstring;
  abi : Abi;
  result : list CallResult;
  compilationErrors : list SolcError.t;
  console : list LogEntry
}.

Definition setSolidityCode (v : jsstring) (p : Page) : Page :=
  mkPage v (functionCalls p) (bytecode p) (abi p) (result p)
         (compilationErrors p) (console p).
Definition setFunctionCalls (v : list jsstring) (p : Page) : Page :=
  mkPage (solidityCode p) v (bytecode p) (abi p) (result p)
         (compilationErrors p) (console p).
Definition setBytecode (v : jsstring) (p : Page) : Page :=
  mkPage (solidityCode p) (functionCalls p) v (abi p) (result p)
         (compilationErrors p) (console p).
Definition setAbi (v : Abi) (p : Page) : Page :=
  mkPage (solidityCode p) (functionCalls p) (bytecode p) v (result p)
         (compilationErrors p) (console p).
Definition setResult (v : list CallResult) (p : Page) : Page :=
  mkPage (solidityCode p) (functionCalls p) (bytecode p) (abi p) v
         (compilationErrors p) (console p).
Definition setCompilationErrors (v : list SolcError.t) (p : Page) : Page :=
  mkPage (solidityCode p) (functionCalls p) (bytecode p) (abi p) (result p)
         v (console p).
Definition console_write (entry : LogEntry) (p : Page) : Page :=
  mkPage (solidityCode p) (functionCalls p) (bytecode p) (abi p) (result p)
         (compilationErrors p) (console p ++ [entry]).

(** *** The compile lane *)

Definition PRAGMA : jsstring := js "pragma solidity 0.8.26;" ++ [10].

(** [m || d] for a string or [undefined]: the empty string is falsy. *)
Definition or_default (m : option jsstring) (d : jsstring) : jsstring :=
  match m with
  | Some (c :: s) => c :: s
  | _ => d
  end.

(** The [catch] block of [compileSolidity]. *)
Definition compileSolidity_catch (error : JsError) (p : Page) : Page :=
  let p := console_write (ConsoleError (js "Compilation error:") error) p in
  match error with
  | AxiosError (Some response) =>
      setCompilationErrors
        [SolcError.mk Error
           (or_default (dataMessage response) (js "Unknown error occurred"))
           SolcError.noDetails] p
  | _ => p
  end.

(** The [try] block of [compileSolidity] from the point where the request
    resolved with [response]. *)
Definition compileSolidity_resolved
    (response : SolcCompileResponse.t) (p : Page) : Page :=
  match last (SolcCompileResponse.data response) with
  | Some lastContract =>
      let p := setBytecode (ContractData.bytecode lastContract) p in
      match JSON_parse (ContractData.abi lastContract) with
      | Normal parsed =>
          setCompilationErrors (SolcCompileResponse.errors response)
            (setAbi parsed p)
      | Throw e => compileSolidity_catch e p
      end
  | None => setCompilationErrors (SolcCompileResponse.errors response) p
  end.

(** [compileSolidity] from the point where the request settled. *)
Definition compileSolidity_settled
    (outcome : Completion SolcCompileResponse.t) (p : Page) : Page :=
  match outcome with
  | Normal response => compileSolidity_resolved response p
  | Throw e => compileSolidity_catch e p
  end.

(** *** The execution lane *)

Record EncodedCall := mkEncoded
  { calldata : jsstring; value : jsstring; caller : jsstring }.

Definition ZERO_ADDRESS : jsstring :=
  js "0x0000000000000000000000000000000000000000".

(** The first loop of [handleFunctionCalls]; it is outside the [try]. *)
Fixpoint encode_calls (abi : Abi) (parsedCalls : list ParsedCall)
    (calls : list EncodedCall) : Completion (list EncodedCall) :=
  match parsedCalls with
  | [] => Normal calls
  | call :: rest =>
      data ← encodeFunctionData abi (name call) (args call);
      encode_calls abi rest (calls ++ [mkEncoded data (js "0") ZERO_ADDRESS])
  end.

(** The inner loop over [result.logs]. *)
Fixpoint decode_logs (abi : Abi) (rawLogs : list RawLog.t)
    (logs : list (DecodedLog.t Value))
  : Completion (list (DecodedLog.t Value)) :=
  match rawLogs with
  | [] => Normal logs
  | log :: rest =>
      decoded ← decodeEventLog abi (RawLog.data log) (RawLog.topics log);
      decode_logs abi rest (logs ++ [decoded])
  end.

Definition TYPE_ERROR : JsError :=
  OtherError (js "TypeError: Cannot read properties of undefined").

(** One round of the [for (const i in results)] loop: the element that
    is pushed on [output]. *)
Definition decode_result (abi : Abi) (parsedCalls : list ParsedCall)
    (i : nat) (r : Response) : Completion CallResult :=
  match parsedCalls !! i with
  | None => Throw TYPE_ERROR
  | Some call =>
      returned ← decodeFunctionResult abi (name call)
                   (ExecutionResponse.result r);
      logs ← decode_logs abi (ExecutionResponse.logs r) [];
      mret (FunctionCallResult.mk (name call)
              (ExecutionResponse.gasUsed r)
              (String_of <$> returned)
              (Some logs)
              None
              (ExecutionResponse.traces r))
  end.

(** The loop itself, from index [i] on. *)
Fixpoint decode_results (abi : Abi) (parsedCalls : list ParsedCall)
    (i : nat) (results : list Response) (output : list CallResult)
  : Completion (list CallResult) :=
  match results with
  | [] => Normal output
  | r :: rest =>
      item ← decode_result abi parsedCalls i r;
      decode_results abi parsedCalls (S i) rest (output ++ [item])
  end.

(** What a call of [handleFunctionCalls] captured: the [abi] and the
    [bytecode] of the render that created it, and its argument. *)
Record Invocation := mkInvocation {
  its_abi : Abi;
  its_bytecode : jsstring;
  parsedCalls : list ParsedCall
}.

Record ExecuteRequest := mkRequest
  { request_bytecode : jsstring; request_calls : list EncodedCall }.

(** How [handleFunctionCalls] runs up to its [await]: it returns at the
    guard, or an encoder exception rejects its promise, or the request is
    posted. *)
Inductive Started :=
| Returned
| Rejected (e : JsError)
| Posted (body : ExecuteRequest).

Definition handleFunctionCalls_start (inv : Invocation) (p : Page)
  : Page * Started :=
  match its_abi inv with
  | [] => (p, Returned)
  | _ :: _ =>
      let p := console_write (ConsoleLog (js "in handle function calls")) p in
      match encode_calls (its_abi inv) (parsedCalls inv) [] with
      | Throw e => (p, Rejected e)
      | Normal calls => (p, Posted (mkRequest (its_bytecode inv) calls))
      end
  end.

(** [handleFunctionCalls] from the point where the request settled: the
    [try] block after the [await], and the [catch] block. *)
Definition handleFunctionCalls_settled (inv : Invocation)
    (outcome : Completion (list Response)) (p : Page) : Page :=
  match results ← outcome;
        decode_results (its_abi inv) (parsedCalls inv) 0 results [] with
  | Normal output => setResult output p
  | Throw e => console_write (ConsoleError (js "Execution error:") e) p
  end.

(** Two responses that differ at most in [exitReason] and [reverted]. *)
Definition same_but_status (r1 r2 : Response) : Prop :=
  ExecutionResponse.result r1 = ExecutionResponse.result r2
  ∧ ExecutionResponse.gasUsed r1 = ExecutionResponse.gasUsed r2
  ∧ ExecutionResponse.logs r1 = ExecutionResponse.logs r2
  ∧ ExecutionResponse.traces r1 = ExecutionResponse.traces r2.

(** *** Editing the call list *)

Definition addFunctionCall (p : Page) : Page :=
  setFunctionCalls (functionCalls p ++ [[]]) p.

(** [handleFunctionCallsChange(e, index)]; [e] is [None] for [null].
    [splice(index, 1)] removes the element at [index] when there is one.
    The second [splice] mutates the array held in the [result] cell in
    place; the updater that contains it runs once for a call of the
    handler.  An assignment beyond the end of [newCalls] would make a
    sparse array, which the call list never is: the handler is defined
    for [index] up to the length. *)
Definition handleFunctionCallsChange (e : option jsstring) (index : nat)
    (p : Page) : option Page :=
  match e with
  | None =>
      Some (setFunctionCalls (delete index (functionCalls p))
              (setResult (delete index (result p)) p))
  | Some target_value =>
      if decide (index < length (functionCalls p))%nat then
        Some (setFunctionCalls (<[index := target_value]> (functionCalls p)) p)
      else if decide (index = length (functionCalls p)) then
        Some (setFunctionCalls (functionCalls p ++ [target_value]) p)
      else None
  end.

(** *** The log section of [ResultDisplay] *)

Inductive LogView :=
| DecodedView (eventName : jsstring) (shown_args : jsstring)
| RawView (address : jsstring) (topics : list jsstring) (data : jsstring).

(** [xs.join(sep)] *)
Fixpoint join (sep : jsstring) (xs : list jsstring) : jsstring :=
  match xs with
  | [] => []
  | [x] => x
  | x :: rest => x ++ sep ++ join sep rest
  end.

Definition show_args (a : LogArgs Value) : jsstring :=
  match a with
  | ArgsArray values => join (js ", ") (String_of <$> values)
  | ArgsObject entries =>
      join (js ", ")
        ((fun '(key, v) => key ++ js ": " ++ String_of v) <$> entries)
  | ArgsAbsent => []
  end.

(** The children of the log section: the decoded logs when [logs] is
    there, and the raw logs when it is not. *)
Definition ResultDisplay_logs (r : CallResult) : Completion (list LogView) :=
  match FunctionCallResult.logs r with
  | Some logs =>
      Normal ((fun log => DecodedView (DecodedLog.eventName log)
                            (show_args (DecodedLog.args log))) <$> logs)
  | None =>
      match FunctionCallResult.rawLogs r with
      | Some raws =>
          Normal ((fun log => RawView (RawLog.address log)
                                (RawLog.topics log) (RawLog.data log))
                  <$> raws)
      | None => Throw TYPE_ERROR
      end
  end.

(** *** Timers, requests and events

    React, the timers and the network are the environment of the page.
    A world is the page together with what is pending: the timer of the
    first effect with the source text its closure holds, the debounced
    invocation of [handleFunctionCalls], the requests that were posted
    and have not settled (by issue number, per lane), and the rejections
    no handler took. *)
Record World := mkWorld {
  page : Page;
  compileTimer : option jsstring;
  compileInFlight : gmap nat jsstring;
  compileIssued : nat;
  execTimer : option Invocation;
  execInFlight : gmap nat Invocation;
  execIssued : nat;
  unhandled : list JsError
}.

Definition with_page (p : Page) (w : World) : World :=
  mkWorld p (compileTimer w) (compileInFlight w) (compileIssued w)
          (execTimer w) (execInFlight w) (execIssued w) (unhandled w).
Definition with_compileTimer (t : option jsstring) (w : World) : World :=
  mkWorld (page w) t (compileInFlight w) (compileIssued w)
          (execTimer w) (execInFlight w) (execIssued w) (unhandled w).
Definition with_execTimer (t : option Invocation) (w : World) : World :=
  mkWorld (page w) (compileTimer w) (compileInFlight w) (compileIssued w)
          t (execInFlight w) (execIssued w) (unhandled w).

(** The first effect: the cleanup of the previous run clears its timer,
    the new run arms one that holds the current source text. *)
Definition effect_compile (w : World) : World :=
  with_compileTimer (Some (solidityCode (page w))) w.

(** Modelled from the spec: the hook [useDebounce] of
    [./hooks/useDebounce], whose file is not among the sources.  A call
    of the debounced function restarts the timer: the pending invocation,
    if any, is cancelled and the new one takes its place.  The invocation
    calls the [handleFunctionCalls] of the render that scheduled it. *)
Definition debouncedHandleFunctionCalls (inv : Invocation) (w : World)
  : World :=
  with_execTimer (Some inv) w.

(** The second effect. *)
Definition effect_calls (w : World) : World :=
  let calls := parse_calls (functionCalls (page w)) in
  if nonEmpty (bytecode (page w)) && bool_decide (0 < length calls)%nat then
    debouncedHandleFunctionCalls
      (mkInvocation (abi (page w)) (bytecode (page w)) calls) w
  else w.

(** A render after the page went from [old] to [page w]: an effect runs
    when one of its dependencies changed.  Strings compare by value;
    [functionCalls] is an array and compares by identity, so
    [callsReplaced] tells whether [setFunctionCalls] stored a new one. *)
Definition rerender (old : Page) (callsReplaced : bool) (w : World)
  : World :=
  let w :=
    if decide (solidityCode (page w) = solidityCode old) then w
    else effect_compile w in
  if callsReplaced || negb (bool_decide (bytecode (page w) = bytecode old))
  then effect_calls w else w.

Inductive Event :=
| Typed (text : jsstring)
| AddClicked
| CallChanged (e : option jsstring) (index : nat)
| CompileTimerFired
| CompileSettled (id : nat) (outcome : Completion SolcCompileResponse.t)
| ExecTimerFired
| ExecSettled (id : nat) (outcome : Completion (list Response)).

(** One event of the single-threaded loop; [None] when the event cannot
    happen in [w] (no such timer, no such request, no such index). *)
Definition step (w : World) (ev : Event) : option World :=
  match ev with
  | Typed text =>
      Some (rerender (page w) false
              (with_page (setSolidityCode text (page w)) w))
  | AddClicked =>
      Some (rerender (page w) true (with_page (addFunctionCall (page w)) w))
  | CallChanged e index =>
      p ← handleFunctionCallsChange e index (page w);
      Some (rerender (page w) true (with_page p w))
  | CompileTimerFired =>
      code ← compileTimer w;
      Some (mkWorld (page w) None
              (<[compileIssued w := PRAGMA ++ code]> (compileInFlight w))
              (S (compileIssued w))
              (execTimer w) (execInFlight w) (execIssued w) (unhandled w))
  | CompileSettled id outcome =>
      _ ← compileInFlight w !! id;
      Some (rerender (page w) false
              (mkWorld (compileSolidity_settled outcome (page w))
                 (compileTimer w) (delete id (compileInFlight w))
                 (compileIssued w)
                 (execTimer w) (execInFlight w) (execIssued w) (unhandled w)))
  | ExecTimerFired =>
      inv ← execTimer w;
      match handleFunctionCalls_start inv (page w) with
      | (p, Returned) => Some (with_execTimer None (with_page p w))
      | (p, Rejected e) =>
          Some (mkWorld p (compileTimer w) (compileInFlight w)
                  (compileIssued w) None (execInFlight w) (execIssued w)
                  (unhandled w ++ [e]))
      | (p, Posted _) =>
          Some (mkWorld p (compileTimer w) (compileInFlight w)
                  (compileIssued w) None
                  (<[execIssued w := inv]> (execInFlight w))
                  (S (execIssued w)) (unhandled w))
      end
  | ExecSettled id outcome =>
      inv ← execInFlight w !! id;
      Some (mkWorld (handleFunctionCalls_settled inv outcome (page w))
              (compileTimer w) (compileInFlight w) (compileIssued w)
              (execTimer w) (delete id (execInFlight w)) (execIssued w)
              (unhandled w))
  end.

(** A run of events from [w]. *)
Fixpoint run (w : World) (evs : list Event) : option World :=
  match evs with
  | [] => Some w
  | ev :: rest => w' ← step w ev; run w' rest
  end.

(** A request of a lane is superseded once a later request of that lane
    was issued. *)
Definition superseded (issued id : nat) : Prop := (S id < issued)%nat.

(** The held registry: interface, bytecode and diagnostics. *)
Definition registry (p : Page)
  : Abi * jsstring * list SolcError.t :=
  (abi p, bytecode p, compilationErrors p).

Definition defaultSolidityCode : jsstring := js "
contract SimpleStorage {
    uint256 public storedData;
    event StoredDataUpdated(uint);

    function set(uint256 x) public {
        storedData = x;
        emit StoredDataUpdated(x);
    }

    function get() public view returns (uint256) {
        return storedData;
    }

    function getBlockNumber() public view returns (uint256) {
      return block.number;
  }
}
".

(** The initial values of the state cells. *)
Definition initialPage : Page :=
  mkPage defaultSolidityCode
    [js "get()"; js "set(1)"; js "get()"; js "getBlockNumber()"]
    [] [] [] [] [].

(** The world after the first render: both effects ran once, the second
    one found no bytecode. *)
Definition mounted : World :=
  effect_calls
    (effect_compile (mkWorld initialPage None ∅ 0 None ∅ 0 [])).

(** An invocation that holds some bytecode and at least one parsed
    call; a lane whose pending and posted invocations all do. *)
Definition holds_work (inv : Invocation) : Prop :=
  its_bytecode inv ≠ [] ∧ parsedCalls inv ≠ [].

Definition lane_holds_work (w : World) : Prop :=
  (∀ inv, execTimer w = Some inv → holds_work inv)
  ∧ (∀ id inv, execInFlight w !! id = Some inv → holds_work inv).

End Page.

(** ** A small interface library for the closed examples

    An implementation of [Externals] with the failure modes of the real
    library: an unknown function name and a wrong number of arguments
    make the encoder throw, empty return data for a function with an
    output and a log whose first topic belongs to no event of the
    interface make the decoders throw.  Values are shown as they are. *)
Module Sample.

Inductive item :=
| function (name : jsstring) (inputs : nat) (outputs : nat)
| event (name : jsstring) (topic0 : jsstring).

Fixpoint getFunction (abi : list item) (functionName : jsstring)
  : option (nat * nat) :=
  match abi with
  | [] => None
  | function n i o :: rest =>
      if decide (n = functionName) then Some (i, o)
      else getFunction rest functionName
  | event _ _ :: rest => getFunction rest functionName
  end.

Fixpoint getEvent (abi : list item) (topic : jsstring) : option jsstring :=
  match abi with
  | [] => None
  | event n t :: rest =>
      if decide (t = topic) then Some n else getEvent rest topic
  | function _ _ _ :: rest => getEvent rest topic
  end.

Definition encode (abi : list item) (functionName : jsstring)
    (args : list jsstring) : Completion jsstring :=
  match getFunction abi functionName with
  | None => Throw (OtherError (js "AbiFunctionNotFoundError"))
  | Some (inputs, _) =>
      if decide (length args = inputs) then
        Normal (functionName ++ LPAREN :: join [COMMA] args ++ [RPAREN])
      else Throw (OtherError (js "AbiEncodingLengthMismatchError"))
  end.

Definition decodeResult (abi : list item) (functionName : jsstring)
    (data : jsstring) : Completion (option jsstring) :=
  match getFunction abi functionName with
  | None => Throw (OtherError (js "AbiFunctionNotFoundError"))
  | Some (_, O) => Normal None
  | Some (_, S _) =>
      if decide (data = js "0x") then
        Throw (OtherError (js "AbiDecodingZeroDataError"))
      else Normal (Some data)
  end.

Definition decodeLog (abi : list item) (data : jsstring)
    (topics : list jsstring) : Completion (DecodedLog.t jsstring) :=
  match topics with
  | [] => Throw (OtherError (js "AbiEventSignatureEmptyTopicsError"))
  | topic :: _ =>
      match getEvent abi topic with
      | None => Throw (OtherError (js "AbiEventSignatureNotFoundError"))
      | Some n => Normal (DecodedLog.mk n (ArgsArray [data]))
      end
  end.

(** The interface of the default contract. *)
Definition storage_abi : list item :=
  [ function (js "storedData") 0 1;
    event (js "StoredDataUpdated") (js "0xaa");
    function (js "set") 1 0;
    function (js "get") 0 1;
    function (js "getBlockNumber") 0 1 ].

Definition counter_abi : list item :=
  [ function (js "increment") 0 0; function (js "count") 0 1 ].

(** The two interface texts this parser knows; any other text is not
    JSON for it. *)
Definition parse (text : jsstring) : Completion (list item) :=
  if decide (text = js "[storage]") then Normal storage_abi
  else if decide (text = js "[counter]") then Normal counter_abi
  else Throw (OtherError (js "SyntaxError"))
.

Definition externals : Externals :=
  {| AbiItem := item;
     Value := jsstring;
     Traces := option jsstring;
     JSON_parse := parse;
     encodeFunctionData := encode;
     decodeFunctionResult := decodeResult;
     decodeEventLog := decodeLog;
     String_of := fun v => v |}.

Definition storage_unit : ContractData.t :=
  ContractData.mk (js "SimpleStorage") (js "[storage]") (js "0x6080aa").
Definition counter_unit : ContractData.t :=
  ContractData.mk (js "Counter") (js "[counter]") (js "0x6080bb").

Definition warning : SolcError.t :=
  SolcError.mk Warning (js "SPDX license identifier not provided")
    SolcError.noDetails.

Definition storage_response : SolcCompileResponse.t :=
  SolcCompileResponse.mk [storage_unit] [warning].
Definition counter_response : SolcCompileResponse.t :=
  SolcCompileResponse.mk [storage_unit; counter_unit] [].

Definition counter_source : jsstring :=
  js "contract Counter { uint256 public count; function increment() public { count++; } }".

(** Responses of the execution service. *)
Definition returned_one : ExecutionResponse.t (option jsstring) :=
  ExecutionResponse.mk (js "Return") false (js "0x01") (js "23456") []
    None.
Definition reverted_one : ExecutionResponse.t (option jsstring) :=
  ExecutionResponse.mk (js "Revert") true (js "0x01") (js "23456") []
    None.
Definition returned_nothing : ExecutionResponse.t (option jsstring) :=
  ExecutionResponse.mk (js "Revert") true (js "0x") (js "21000") [] None.
Definition known_log : RawLog.t :=
  RawLog.mk (js "0x5fbdb2315678afecb367f032d93f642f64180aa3")
    [js "0xaa"] (js "0x01").
Definition foreign_log : RawLog.t :=
  RawLog.mk (js "0x5fbdb2315678afecb367f032d93f642f64180aa3")
    [js "0xcc"] (js "0x01").
Definition set_with (log : RawLog.t)
  : ExecutionResponse.t (option jsstring) :=
  ExecutionResponse.mk (js "Stop") false (js "0x") (js "43210") [log]
    None.

Definition get_call : ParsedCall := mkCall (js "get") [].
Definition set_call : ParsedCall := mkCall (js "set") [js "1"].

Definition invocation (calls : list ParsedCall)
  : @Invocation externals :=
  @mkInvocation externals storage_abi (js "0x6080aa") calls.

Definition foo_call : ParsedCall := mkCall (js "foo") [].

Definition page0 : @Page externals := @initialPage externals.
Definition mounted0 : @World externals := @mounted externals.


Definition block_call : ParsedCall := mkCall (js "getBlockNumber") [].

(** The default contract is compiled, then a fifth call, of a function
    the interface does not have, is added to the list. *)
Definition foo_events : list (@Event externals) :=
  [ CompileTimerFired;
    CompileSettled 0 (Normal storage_response);
    AddClicked;
    CallChanged (Some (js "foo()")) 4 ].

Definition foo_world : @World externals :=
  default mounted0 (run mounted0 foo_events).

(** The source is edited after the first compile request was posted;
    the second request is posted and resolves first. *)
Definition overtaking_events : list (@Event externals) :=
  [ CompileTimerFired;
    Typed counter_source;
    CompileTimerFired;
    CompileSettled 1 (Normal counter_response) ].

End Sample.

(** ** Notions for the further properties *)

(** A string that neither starts nor ends with a character that [trim]
    strips. *)
Definition trimmed (arg : jsstring) : Prop :=
  (∀ c, head arg = Some c → isTrimChar c = false)
  ∧ (∀ c, last arg = Some c → isTrimChar c = false).

(** What a parsed call looks like: an identifier of word characters, and
    arguments that are not empty, hold no comma and no line terminator,
    and are trimmed. *)
Definition well_formed_call (c : ParsedCall) : Prop :=
  name c ≠ []
  ∧ Forall (fun ch => isWordChar ch = true) (name c)
  ∧ Forall (fun arg =>
              arg ≠ [] ∧ (COMMA ∉ arg)
              ∧ Forall (fun ch => isDotChar ch = true) arg
              ∧ trimmed arg) (args c).

(** A call written out as a line of the call list: the name, and the
    arguments between parentheses with commas between them. *)
Definition call_text (c : ParsedCall) : jsstring :=
  name c ++ LPAREN :: join [COMMA] (args c) ++ [RPAREN].

Section Notions.
Context `{Externals}.

(** The pending compile timer, if any, holds the source text of the
    page, and the compile requests in flight carry the pragma. *)
Definition compile_lane_current (w : World) : Prop :=
  (∀ code, compileTimer w = Some code → code = solidityCode (page w))
  ∧ (∀ id code,
       compileInFlight w !! id = Some code → ∃ source, code = PRAGMA ++ source).

(** The events that come from the user, as opposed to timers and
    responses. *)
Definition is_user_event (ev : Event) : bool :=
  match ev with
  | Typed _ | AddClicked | CallChanged _ _ => true
  | _ => false
  end.

(** An invocation whose request was posted: its interface is not empty
    and the encoder accepted every one of its calls. *)
Definition was_posted (inv : Invocation) : Prop :=
  its_abi inv ≠ []
  ∧ (∃ calls,
       encode_calls (its_abi inv) (parsedCalls inv) [] = Normal calls).

Definition posted_requests_encoded (w : World) : Prop :=
  ∀ id inv, execInFlight w !! id = Some inv → was_posted inv.

(** How the encoder made one entry of the request from one call. *)
Definition encodes (abi : Abi) (call : ParsedCall) (enc : EncodedCall)
  : Prop :=
  encodeFunctionData abi (name call) (args call) = Normal (calldata enc)
  ∧ value enc = js "0"
  ∧ caller enc = ZERO_ADDRESS.

End Notions.

(** Further concrete data of the sample service. *)
Module Cases.

Definition broken_unit : ContractData.t :=
  ContractData.mk (js "Broken") (js "[storage") (js "0x6080cc").

Definition broken_response : SolcCompileResponse.t :=
  SolcCompileResponse.mk [Sample.storage_unit; broken_unit] [].

Definition syntax_error : SolcError.t :=
  SolcError.mk Error (js "ParserError: Expected ';' but got '}'")
    (SolcError.mkDetails (Some 5) (Some 9) None).

Definition failed_response : SolcCompileResponse.t :=
  SolcCompileResponse.mk [] [syntax_error].

(** The world in which the default contract was compiled and its
    four calls wait for their timer. *)
Definition compiled_world : @World Sample.externals :=
  default Sample.mounted0
    (run Sample.mounted0
       [CompileTimerFired; CompileSettled 0 (Normal Sample.storage_response)]).

(** The world in which those calls were posted and a second compile
    request is in flight. *)
Definition busy_events : list (@Event Sample.externals) :=
  [ CompileTimerFired;
    CompileSettled 0 (Normal Sample.storage_response);
    ExecTimerFired;
    Typed Sample.counter_source;
    CompileTimerFired ].

Definition busy_world : @World Sample.externals :=
  default Sample.mounted0 (run Sample.mounted0 busy_events).

(** The world in which the source was edited before the first compile
    timer fired, and the world after it fired. *)
Definition typed_world : @World Sample.externals :=
  default Sample.mounted0
    (run Sample.mounted0 [Typed (js "contract A {}"); Typed Sample.counter_source]).

Definition fired_world : @World Sample.externals :=
  default typed_world (step typed_world CompileTimerFired).

Definition default_calls : list ParsedCall :=
  [Sample.get_call; Sample.set_call; Sample.get_call; Sample.block_call].





End Cases.

(** * Properties *)

(** ** The call parser *)

Lemma span_split p s a b :
  span p s = (a, b) → s = a ++ b ∧ Forall (fun c => p c = true) a.
Proof.
  revert a b; induction s as [|c s IH]; intros a b; simpl.
  - intros [= <- <-]. by split.
  - destruct (p c) eqn:Hc.
    + destruct (span p s) as [a' b'] eqn:Hs. intros [= <- <-].
      destruct (IH _ _ eq_refl) as [-> Ha]. split; [done | by constructor].
    + intros [= <- <-]. by split.
Qed.

Lemma span_cut p a c b :
  Forall (fun c => p c = true) a → p c = false →
  span p (a ++ c :: b) = (a, c :: b).
Proof.
  intros Ha Hc. induction Ha as [|d a Hd Ha IH]; simpl.
  - by rewrite Hc.
  - by rewrite Hd, IH.
Qed.

Lemma span_over p a b :
  Forall (fun c => p c = true) a →
  (span p (a ++ b)).1 = a ++ (span p b).1.
Proof.
  intros Ha. induction Ha as [|d a Hd Ha IH]; simpl; [done|].
  rewrite Hd. destruct (span p (a ++ b)) as [x y]. simpl in *. by rewrite IH.
Qed.

Lemma lastIndexOf_Some c s k :
  lastIndexOf c s = Some k → s = take k s ++ c :: drop (S k) s.
Proof.
  revert k; induction s as [|d s IH]; intros k; simpl; [done|].
  destruct (lastIndexOf c s) as [j|] eqn:Hj.
  - intros [= <-]. simpl. f_equal. by apply IH.
  - destruct (d =? c) eqn:Hd; [|done]. intros [= <-].
    apply N.eqb_eq in Hd as ->. simpl. by rewrite drop_0.
Qed.

Lemma lastIndexOf_lt c s k :
  lastIndexOf c s = Some k → (k < length s)%nat.
Proof.
  revert k; induction s as [|d s IH]; intros k; simpl; [done|].
  destruct (lastIndexOf c s) as [j|] eqn:Hj.
  - intros [= <-]. specialize (IH _ eq_refl). lia.
  - destruct (d =? c); [|done]. intros [= <-]. lia.
Qed.

Lemma lastIndexOf_ge c s k :
  s !! k = Some c → ∃ k', lastIndexOf c s = Some k' ∧ (k ≤ k')%nat.
Proof.
  revert k; induction s as [|d s IH]; intros k; [done|].
  destruct k as [|k]; simpl.
  - intros [= ->]. destruct (lastIndexOf c s) as [j|].
    + exists (S j). split; [done | lia].
    + rewrite N.eqb_refl. by exists 0%nat.
  - intros Hk. destruct (IH _ Hk) as (k' & -> & Hle).
    exists (S k'). split; [done | lia].
Qed.

Lemma match_here_sound s name group2 :
  match_here s = Some (name, group2) → ∃ post, occurs_at s [] name group2 post.
Proof.
  unfold match_here.
  destruct (span isWordChar s) as [w r] eqn:Hw.
  destruct w as [|c0 w]; [done|]. destruct r as [|c rest]; [done|].
  destruct (c =? LPAREN) eqn:Hc; [|done]. apply N.eqb_eq in Hc as ->.
  destruct (span isDotChar rest) as [stretch tl] eqn:Hd. simpl.
  destruct (lastIndexOf RPAREN stretch) as [k|] eqn:Hk; [|done].
  intros [= <- <-].
  apply span_split in Hw as [-> Hword]. apply span_split in Hd as [-> Hdot].
  exists (drop (S k) stretch ++ tl). repeat split; [|done|done|].
  - simpl. do 2 f_equal.
    rewrite (lastIndexOf_Some _ _ _ Hk) at 1. by rewrite <- !app_assoc.
  - by apply Forall_take.
Qed.

Lemma match_here_complete name group2 post :
  name ≠ [] →
  Forall (fun c => isWordChar c = true) name →
  Forall (fun c => isDotChar c = true) group2 →
  ∃ group2',
    match_here (name ++ LPAREN :: group2 ++ RPAREN :: post)
      = Some (name, group2')
    ∧ (length group2 ≤ length group2')%nat.
Proof.
  intros Hne Hword Hdot. unfold match_here.
  rewrite (span_cut _ _ _ _ Hword) by done.
  destruct name as [|c0 name']; [done|]. rewrite N.eqb_refl.
  rewrite (span_over _ _ _ Hdot). simpl.
  destruct (span isDotChar post) as [x y]. simpl.
  destruct (lastIndexOf_ge RPAREN (group2 ++ RPAREN :: x) (length group2))
    as (k & Hk & Hle).
  { by rewrite list_lookup_middle. }
  rewrite Hk. eexists. split; [done|].
  apply lastIndexOf_lt in Hk. rewrite length_take. lia.
Qed.

Lemma match_here_None s name group2 post :
  match_here s = None → ¬ occurs_at s [] name group2 post.
Proof.
  intros Hnone (-> & Hne & Hword & Hdot). simpl in Hnone.
  destruct (match_here_complete name group2 post Hne Hword Hdot)
    as (g & Hg & _).
  congruence.
Qed.

Lemma occurs_at_tail c line pre name group2 post :
  occurs_at (c :: line) (c :: pre) name group2 post
  ↔ occurs_at line pre name group2 post.
Proof.
  unfold occurs_at. simpl. split.
  - intros ([= ->] & ?). by split.
  - intros (-> & ?). by split.
Qed.

Lemma occurs_at_head c line pre name group2 post :
  occurs_at (c :: line) pre name group2 post →
  pre = [] ∨ ∃ pre', pre = c :: pre' ∧ occurs_at line pre' name group2 post.
Proof.
  destruct pre as [|d pre']; [by left|]. intros Hocc. right.
  assert (d = c) as -> by (destruct Hocc as [[= ->] _]; done).
  exists pre'. split; [done|]. exact (proj1 (occurs_at_tail _ _ _ _ _ _) Hocc).
Qed.

Lemma regex_match_None line :
  regex_match line = None → ¬ matches_pattern line.
Proof.
  induction line as [|c line IH]; simpl.
  - intros _ (pre & name & g & post & Hline & Hne & _).
    destruct pre, name; done.
  - destruct (match_here (c :: line)) as [groups|] eqn:Hhere; [done|].
    intros Hrest (pre & name & g & post & Hocc).
    destruct (occurs_at_head _ _ _ _ _ _ Hocc) as [-> | (pre' & -> & Hocc')].
    + by eapply match_here_None.
    + apply (IH Hrest). by exists pre', name, g, post.
Qed.

Lemma regex_match_Some line name group2 :
  regex_match line = Some (name, group2) →
  ∃ pre post,
    occurs_at line pre name group2 post ∧ preferred line pre name group2.
Proof.
  induction line as [|c line IH]; simpl; [done|].
  destruct (match_here (c :: line)) as [groups|] eqn:Hhere.
  - intros [= ->].
    destruct (match_here_sound _ _ _ Hhere) as (post & Hocc).
    exists [], post. split; [done|].
    intros pre' name' g' post' Hocc'. split; [simpl; lia|]. intros ->.
    destruct Hocc' as (Hline & Hne & Hword & Hdot).
    destruct (match_here_complete name' g' post' Hne Hword Hdot)
      as (g'' & Hg'' & Hle).
    simpl in Hline. rewrite <- Hline, Hhere in Hg''. by simplify_eq.
  - intros Hrest. destruct (IH Hrest) as (pre & post & Hocc & Hpref).
    exists (c :: pre), post. split; [by apply occurs_at_tail|].
    intros pre' name' g' post' Hocc'.
    destruct (occurs_at_head _ _ _ _ _ _ Hocc') as [-> | (pre'' & -> & Hocc'')].
    + by apply match_here_None in Hocc'.
    + destruct (Hpref _ _ _ _ Hocc'') as [Hlen Hsame].
      split; [simpl; lia|]. intros [= ->]. by apply Hsame.
Qed.

Lemma parse_line_push calls line :
  parse_line calls line = calls ++ parse_line [] line.
Proof.
  unfold parse_line. destruct (regex_match line) as [[n g]|]; [done|].
  by rewrite app_nil_r.
Qed.

Lemma parse_calls_from calls lines :
  foldl parse_line calls lines = calls ++ concat (parse_line [] <$> lines).
Proof.
  revert calls; induction lines as [|line lines IH]; intros calls; simpl.
  - by rewrite app_nil_r.
  - rewrite IH, (parse_line_push calls). by rewrite <- app_assoc.
Qed.

Lemma parse_line_whole name group2 :
  name ≠ [] →
  Forall (fun c => isWordChar c = true) name →
  Forall (fun c => isDotChar c = true) group2 →
  parse_line [] (name ++ LPAREN :: group2 ++ [RPAREN])
    = [mkCall name (split_args group2)].
Proof.
  intros Hne Hword Hdot.
  assert (occurs_at (name ++ LPAREN :: group2 ++ [RPAREN]) [] name group2 [])
    as Hocc by done.
  unfold parse_line.
  destruct (regex_match (name ++ LPAREN :: group2 ++ [RPAREN]))
    as [[n g]|] eqn:Hm.
  - destruct (regex_match_Some _ _ _ Hm) as (pre & post & Hocc' & Hpref).
    destruct (Hpref _ _ _ _ Hocc) as [Hlen Hsame].
    destruct pre; [|simpl in Hlen; lia].
    destruct (Hsame eq_refl) as [-> Hle].
    destruct Hocc' as (Hline & _). simpl in Hline.
    apply app_inv_head in Hline. injection Hline as Hline.
    assert (length (group2 ++ [RPAREN]) = length (g ++ RPAREN :: post))
      as Hlens by (by rewrite Hline).
    rewrite !length_app in Hlens. simpl in Hlens.
    apply app_inj_1 in Hline as [-> _]; [done | lia].
  - exfalso. apply (regex_match_None _ Hm). by exists [], name, group2, [].
Qed.

Lemma split_comma_nonempty s : split_comma s ≠ [].
Proof.
  destruct s as [|c s]; simpl; [done|].
  destruct (c =? COMMA); [done|]. by destruct (split_comma s).
Qed.

Lemma split_comma_join s : join [COMMA] (split_comma s) = s.
Proof.
  induction s as [|c s IH]; [done|]. simpl.
  pose proof (split_comma_nonempty s) as Hne.
  destruct (split_comma s) as [|piece pieces]; [done|].
  destruct (c =? COMMA) eqn:Hc.
  - apply N.eqb_eq in Hc as ->. simpl in *. by rewrite IH.
  - simpl in *. destruct pieces; simpl in *; by rewrite <- IH.
Qed.

Lemma split_comma_pieces s :
  Forall (fun piece => COMMA ∉ piece) (split_comma s).
Proof.
  induction s as [|c s IH]; simpl.
  - repeat constructor. by intros ?%elem_of_nil.
  - pose proof (split_comma_nonempty s) as Hne.
    destruct (split_comma s) as [|piece pieces]; [done|].
    destruct (c =? COMMA) eqn:Hc.
    + constructor; [by intros ?%elem_of_nil | done].
    + apply Forall_cons in IH as [Hpiece Hpieces].
      constructor; [|done].
      intros [Heq|Hin]%elem_of_cons; [|by apply Hpiece].
      subst c. by rewrite N.eqb_refl in Hc.
Qed.

(** C4.  A line that holds an occurrence of the pattern [name(args)]
    makes the parser push exactly one call: its name is the identifier
    and its arguments are the split, trimmed and filtered contents of the
    parentheses of the occurrence the matcher prefers (the leftmost one,
    with the contents running to the last closing parenthesis before the
    end of the line); when the whole line is [name(args)] these are
    [name] and [args] themselves.  A line without an occurrence pushes
    nothing.  The pass over the call list concatenates what the lines
    push, in the order of the lines.  The split is the one at the commas.
    [f()] and [f( , )] both parse to a call without arguments. *)
Theorem parser_spec (lines : list jsstring) (line : jsstring) :
  (matches_pattern line →
   ∃ pre name group2 post,
     occurs_at line pre name group2 post
     ∧ preferred line pre name group2
     ∧ parse_line [] line = [mkCall name (split_args group2)])
  ∧ (¬ matches_pattern line → parse_line [] line = [])
  ∧ (∀ name group2,
       name ≠ [] →
       Forall (fun c => isWordChar c = true) name →
       Forall (fun c => isDotChar c = true) group2 →
       parse_line [] (name ++ LPAREN :: group2 ++ [RPAREN])
         = [mkCall name (split_args group2)])
  ∧ parse_calls lines = concat (parse_line [] <$> lines)
  ∧ (∀ group2,
       split_args group2
         = filter (fun arg => arg ≠ []) (trim <$> split_comma group2)
       ∧ join [COMMA] (split_comma group2) = group2
       ∧ Forall (fun piece => COMMA ∉ piece) (split_comma group2))
  ∧ parse_line [] (js "f()") = [mkCall (js "f") []]
  ∧ parse_line [] (js "f( , )") = [mkCall (js "f") []].
Proof.
  repeat split.
  - intros Hm. unfold parse_line.
    destruct (regex_match line) as [[n g]|] eqn:Hr.
    + destruct (regex_match_Some _ _ _ Hr) as (pre & post & Hocc & Hpref).
      by exists pre, n, g, post.
    + by apply regex_match_None in Hr.
  - intros Hno. unfold parse_line.
    destruct (regex_match line) as [[n g]|] eqn:Hr; [|done].
    destruct (regex_match_Some _ _ _ Hr) as (pre & post & Hocc & _).
    exfalso. apply Hno. by exists pre, n, g, post.
  - apply parse_line_whole.
  - apply (parse_calls_from []).
  - unfold split_args. apply list_filter_iff. intros [|c arg]; simpl; split; done.
  - apply split_comma_join.
  - apply split_comma_pieces.
Qed.

(** The default call list, a line without parentheses, and a line with
    text around the call. *)
Example parse_default_calls :
  parse_calls [js "get()"; js "set(1)"; js "get()"; js "getBlockNumber()"]
  = [mkCall (js "get") []; mkCall (js "set") [js "1"];
     mkCall (js "get") []; mkCall (js "getBlockNumber") []].
Proof. reflexivity. Qed.

Example parse_skips_foobar :
  parse_calls [js "get()"; js "foobar"; js "add( 1 ,, 2 )"]
  = [mkCall (js "get") []; mkCall (js "add") [js "1"; js "2"]].
Proof. reflexivity. Qed.

Example parse_takes_leftmost_and_longest :
  parse_calls [js " x = add( 1 , 2 ) ; g(3)"]
  = [mkCall (js "add") [js "1"; js "2 ) ; g(3"]].
Proof. reflexivity. Qed.

(** ** The compile lane *)

Section CompileLane.
Context `{Externals}.

Lemma setters_keep_rest (b : jsstring) (a : Abi) (es : list SolcError.t)
    (p : Page) :
  setCompilationErrors es (setAbi a (setBytecode b p))
  = mkPage (solidityCode p) (functionCalls p) b a (result p) es (console p).
Proof. done. Qed.

(** C8.  When the compile request resolves with a list of units that
    ends in [lastContract], whose interface text parses to [parsed], the
    page afterwards holds [parsed] as interface, the bytecode of
    [lastContract] and the diagnostics of the response, whatever it held
    before, and nothing else changed. *)
Theorem compile_success_replaces (response : SolcCompileResponse.t)
    (units : list ContractData.t) (lastContract : ContractData.t)
    (parsed : Abi) (p : Page) :
  SolcCompileResponse.data response = units ++ [lastContract] →
  JSON_parse (ContractData.abi lastContract) = Normal parsed →
  compileSolidity_settled (Normal response) p
  = mkPage (solidityCode p) (functionCalls p)
      (ContractData.bytecode lastContract) parsed (result p)
      (SolcCompileResponse.errors response) (console p).
Proof.
  intros Hdata Hparse. simpl. unfold compileSolidity_resolved.
  rewrite Hdata, last_snoc, Hparse. apply setters_keep_rest.
Qed.

(** C5, as the code has it.  When the compile request fails, interface
    and bytecode stay as they were.  The diagnostics are replaced by one
    error diagnostic only when the failure carries a response of the
    server: its message is the message of the response body, or the
    default text when that is missing or empty.  A failure without a
    response (the server was not reached) and any other exception leave
    the diagnostics as they were. *)
Theorem compile_failure_spec (error : JsError) (p : Page) :
  let p' := compileSolidity_settled (Throw error) p in
  abi p' = abi p
  ∧ bytecode p' = bytecode p
  ∧ (∀ response,
       error = AxiosError (Some response) →
       compilationErrors p'
       = [SolcError.mk Error
            (or_default (dataMessage response) (js "Unknown error occurred"))
            SolcError.noDetails])
  ∧ (∀ c text,
       or_default (Some (c :: text)) (js "Unknown error occurred")
       = c :: text)
  ∧ or_default (Some []) (js "Unknown error occurred")
    = js "Unknown error occurred"
  ∧ or_default None (js "Unknown error occurred")
    = js "Unknown error occurred"
  ∧ (error = AxiosError None → compilationErrors p' = compilationErrors p)
  ∧ (∀ description,
       error = OtherError description →
       compilationErrors p' = compilationErrors p).
Proof.
  simpl. unfold compileSolidity_catch.
  destruct error as [[response|]|description]; simpl;
    repeat split; intros; simplify_eq; done.
Qed.

End CompileLane.

(** C8 at the response with two units of the sample service. *)
Lemma compile_success_replaces_witness :
  SolcCompileResponse.data Sample.counter_response
    = [Sample.storage_unit] ++ [Sample.counter_unit]
  ∧ Sample.parse (ContractData.abi Sample.counter_unit)
    = Normal Sample.counter_abi
  ∧ compileSolidity_settled (Normal Sample.counter_response) Sample.page0
    = mkPage (H := Sample.externals) defaultSolidityCode
        [js "get()"; js "set(1)"; js "get()"; js "getBlockNumber()"]
        (js "0x6080bb") Sample.counter_abi [] [] [].
Proof.
  split; [reflexivity|]. split; [reflexivity|].
  apply (compile_success_replaces (H := Sample.externals)
           Sample.counter_response [Sample.storage_unit]
           Sample.counter_unit Sample.counter_abi Sample.page0);
    reflexivity.
Defined.

(** C5 as stated fails: the request fails without a response and the
    diagnostics, empty before, are still empty, not one synthesized
    error. *)
Lemma transport_failure_leaves_diagnostics :
  compilationErrors
    (compileSolidity_settled (Throw (AxiosError None)) Sample.page0) = []
  ∧ ¬ ∃ diagnostic,
        compilationErrors
          (compileSolidity_settled (Throw (AxiosError None)) Sample.page0)
        = [diagnostic].
Proof. split; [reflexivity|]. intros [d Hd]. discriminate Hd. Qed.

(** ** The execution lane *)

Section ExecutionLane.
Context `{Externals}.

Lemma decode_logs_from abi raws logs :
  decode_logs abi raws logs
  = (decoded ← decode_logs abi raws []; mret (logs ++ decoded)).
Proof.
  revert logs; induction raws as [|raw raws IH]; intros logs; simpl.
  - by rewrite app_nil_r.
  - destruct (decodeEventLog abi (RawLog.data raw) (RawLog.topics raw))
      as [d|e]; simpl; [|done].
    rewrite (IH (logs ++ [d])), (IH [d]).
    destruct (decode_logs abi raws []) as [ds|e]; simpl; [|done].
    by rewrite <- app_assoc.
Qed.

Lemma decode_logs_Normal abi raws decoded :
  decode_logs abi raws [] = Normal decoded
  ↔ Forall2 (fun raw d =>
               decodeEventLog abi (RawLog.data raw) (RawLog.topics raw)
               = Normal d) raws decoded.
Proof.
  revert decoded; induction raws as [|raw raws IH]; intros decoded; simpl.
  - split; [by intros [= <-]; constructor | by intros ->%Forall2_nil_inv_l].
  - split.
    + destruct (decodeEventLog abi (RawLog.data raw) (RawLog.topics raw))
        as [d|e] eqn:Hd; simpl; [|done].
      rewrite decode_logs_from.
      destruct (decode_logs abi raws []) as [ds|e] eqn:Hds; simpl; [|done].
      intros [= <-]. constructor; [done|]. by apply IH.
    + intros (d & ds & Hd & Hds & ->)%Forall2_cons_inv_l.
      rewrite Hd. simpl. rewrite decode_logs_from.
      apply IH in Hds. by rewrite Hds.
Qed.

Lemma decode_logs_Throw abi raws raw e :
  raw ∈ raws →
  decodeEventLog abi (RawLog.data raw) (RawLog.topics raw) = Throw e →
  ∃ e', decode_logs abi raws [] = Throw e'.
Proof.
  intros Hin Hthrow.
  destruct (decode_logs abi raws []) as [ds|e'] eqn:Hds; [|by exists e'].
  apply decode_logs_Normal in Hds.
  apply list_elem_of_lookup in Hin as [k Hk].
  destruct (Forall2_lookup_l _ _ _ _ _ Hds Hk) as (d & _ & Hd). congruence.
Qed.

Lemma decode_results_from abi calls i results output :
  decode_results abi calls i results output
  = (items ← decode_results abi calls i results []; mret (output ++ items)).
Proof.
  revert i output; induction results as [|r results IH]; intros i output; simpl.
  - by rewrite app_nil_r.
  - destruct (decode_result abi calls i r) as [item|e]; simpl; [|done].
    rewrite (IH _ (output ++ [item])), (IH _ [item]).
    destruct (decode_results abi calls (S i) results []) as [items|e]; simpl;
      [|done].
    by rewrite <- app_assoc.
Qed.

(** The loop succeeds exactly when every round does, and then pushes the
    items of the rounds in order. *)
Lemma decode_results_Normal abi calls results i items :
  decode_results abi calls i results [] = Normal items
  ↔ length items = length results
    ∧ ∀ k r item,
        results !! k = Some r → items !! k = Some item →
        decode_result abi calls (i + k) r = Normal item.
Proof.
  revert i items; induction results as [|r results IH]; intros i items; simpl.
  - split.
    + intros [= <-]. split; [done|]. intros k r item Hk. by destruct k.
    + intros [Hlen _]. by destruct items.
  - split.
    + destruct (decode_result abi calls i r) as [item|e] eqn:Hitem; simpl;
        [|done].
      rewrite decode_results_from.
      destruct (decode_results abi calls (S i) results []) as [rest|e]
        eqn:Hrest; simpl; [|done].
      apply IH in Hrest as [Hlen Hall].
      intros [= <-]. split; [simpl; lia|].
      intros [|k] r' item'; simpl.
      * intros [= <-] [= <-]. by rewrite Nat.add_0_r.
      * intros Hr Hi. rewrite Nat.add_succ_r. by apply Hall.
    + intros [Hlen Hall]. destruct items as [|item rest]; [done|].
      pose proof (Hall 0%nat r item eq_refl eq_refl) as Hitem.
      rewrite Nat.add_0_r in Hitem. rewrite Hitem. simpl.
      rewrite decode_results_from.
      assert (decode_results abi calls (S i) results [] = Normal rest)
        as ->; [|done].
      apply IH. split; [simpl in Hlen; lia|].
      intros k r' it Hr Hi. specialize (Hall (S k) r' it Hr Hi).
      by rewrite Nat.add_succ_r in Hall.
Qed.

Lemma decode_results_Throw abi calls results i k r e :
  results !! k = Some r →
  decode_result abi calls (i + k) r = Throw e →
  ∃ e', decode_results abi calls i results [] = Throw e'.
Proof.
  intros Hk Hthrow.
  destruct (decode_results abi calls i results []) as [items|e'] eqn:Hres;
    [|by exists e'].
  apply decode_results_Normal in Hres as [Hlen Hall].
  destruct (lookup_lt_is_Some_2 items k) as [item Hitem].
  { rewrite Hlen. by eapply lookup_lt_Some. }
  specialize (Hall _ _ _ Hk Hitem). congruence.
Qed.

Lemma decode_result_status abi calls i (r1 r2 : Response) :
  same_but_status r1 r2 →
  decode_result abi calls i r1 = decode_result abi calls i r2.
Proof.
  intros (Hresult & Hgas & Hlogs & Htraces). unfold decode_result.
  by rewrite Hresult, Hgas, Hlogs, Htraces.
Qed.

Lemma decode_results_status abi calls (rs1 rs2 : list Response) :
  Forall2 same_but_status rs1 rs2 →
  ∀ i output,
    decode_results abi calls i rs1 output
    = decode_results abi calls i rs2 output.
Proof.
  induction 1 as [|r1 r2 rs1 rs2 Hsame _ IH]; intros i output; simpl; [done|].
  rewrite (decode_result_status _ _ _ _ _ Hsame).
  destruct (decode_result abi calls i r2); simpl; [apply IH | done].
Qed.

(** C10.  Two batches of responses that agree on [result], [gasUsed],
    [logs] and [traces], and so differ at most in [reverted] and
    [exitReason], leave the same page behind, and response by response
    the decoder makes the same item of them: the return data of a
    reverted call is decoded and shown like that of a call that
    returned. *)
Theorem status_fields_ignored (inv : Invocation) (rs1 rs2 : list Response)
    (p : Page) :
  Forall2 same_but_status rs1 rs2 →
  handleFunctionCalls_settled inv (Normal rs1) p
  = handleFunctionCalls_settled inv (Normal rs2) p
  ∧ ∀ i r1 r2,
      rs1 !! i = Some r1 → rs2 !! i = Some r2 →
      decode_result (its_abi inv) (parsedCalls inv) i r1
      = decode_result (its_abi inv) (parsedCalls inv) i r2.
Proof.
  intros Hsame. split.
  - unfold handleFunctionCalls_settled. simpl.
    by rewrite (decode_results_status _ _ _ _ Hsame).
  - intros i r1 r2 H1 H2. apply decode_result_status.
    by eapply Forall2_lookup_lr.
Qed.

Lemma decode_result_field_failure abi calls i (r : Response) call e :
  calls !! i = Some call →
  decodeFunctionResult abi (name call) (ExecutionResponse.result r) = Throw e
  ∨ (∃ log, log ∈ ExecutionResponse.logs r
            ∧ decodeEventLog abi (RawLog.data log) (RawLog.topics log)
              = Throw e) →
  ∃ e', decode_result abi calls i r = Throw e'.
Proof.
  intros Hcall Hfail. unfold decode_result. rewrite Hcall.
  destruct (decodeFunctionResult abi (name call) (ExecutionResponse.result r))
    as [returned|e1]; simpl; [|by exists e1].
  destruct Hfail as [Hfail | (log & Hin & Hlog)]; [done|].
  destruct (decode_logs_Throw _ _ _ _ Hin Hlog) as [e' ->]. by exists e'.
Qed.

(** C2, as the code has it.  The decoder works through the batch inside
    one [try]: when every round of the loop succeeds, the result list is
    replaced by the items of the rounds, one per response and in order;
    when the round of any response throws, which a failing decode of its
    return data or of one of its logs makes it do, no item of the batch
    is kept: the page is as before but for one line on the console. *)
Theorem decode_batch_all_or_nothing (inv : Invocation)
    (results : list Response) (p : Page) :
  (∀ items,
     length items = length results →
     (∀ k r item,
        results !! k = Some r → items !! k = Some item →
        decode_result (its_abi inv) (parsedCalls inv) k r = Normal item) →
     handleFunctionCalls_settled inv (Normal results) p = setResult items p)
  ∧ (∀ k r e,
       results !! k = Some r →
       decode_result (its_abi inv) (parsedCalls inv) k r = Throw e →
       ∃ e',
         handleFunctionCalls_settled inv (Normal results) p
         = console_write (ConsoleError (js "Execution error:") e') p
         ∧ result (handleFunctionCalls_settled inv (Normal results) p)
           = result p)
  ∧ (∀ k r call e,
       parsedCalls inv !! k = Some call →
       decodeFunctionResult (its_abi inv) (name call)
         (ExecutionResponse.result r) = Throw e
       ∨ (∃ log, log ∈ ExecutionResponse.logs r
                 ∧ decodeEventLog (its_abi inv) (RawLog.data log)
                     (RawLog.topics log) = Throw e) →
       ∃ e', decode_result (its_abi inv) (parsedCalls inv) k r = Throw e').
Proof.
  repeat split.
  - intros items Hlen Hall. unfold handleFunctionCalls_settled. simpl.
    assert (decode_results (its_abi inv) (parsedCalls inv) 0 results []
            = Normal items) as ->; [|done].
    apply decode_results_Normal. by split.
  - intros k r e Hk Hthrow. unfold handleFunctionCalls_settled. simpl.
    destruct (decode_results_Throw (its_abi inv) (parsedCalls inv) results
                0 k r e Hk Hthrow) as [e' ->].
    by exists e'.
  - intros k r call e. apply decode_result_field_failure.
Qed.

(** C3, as the code has it.  The inner loop returns the decoded logs
    exactly when the library decodes every log of the response, and then
    in order and as the library made them.  A log the library throws on,
    such as one of no event of the interface, makes the loop and the
    round of its response throw.  An item the decoder makes has [logs]
    and no [rawLogs], so the display shows its decoded logs, with the
    arguments joined by position or as [key: value] pairs, and no raw
    record.  The raw records are shown for an item without [logs] only.
    With an empty interface the handler returns before anything is
    sent. *)
Theorem log_decoding_spec (abi : Abi) (calls : list ParsedCall) :
  (∀ raws decoded,
     decode_logs abi raws [] = Normal decoded
     ↔ Forall2 (fun raw d =>
                  decodeEventLog abi (RawLog.data raw) (RawLog.topics raw)
                  = Normal d) raws decoded)
  ∧ (∀ i (r : Response) call log e,
       calls !! i = Some call →
       log ∈ ExecutionResponse.logs r →
       decodeEventLog abi (RawLog.data log) (RawLog.topics log) = Throw e →
       ∃ e', decode_result abi calls i r = Throw e')
  ∧ (∀ i (r : Response) item,
       decode_result abi calls i r = Normal item →
       ∃ decoded,
         decode_logs abi (ExecutionResponse.logs r) [] = Normal decoded
         ∧ FunctionCallResult.logs item = Some decoded
         ∧ FunctionCallResult.rawLogs item = None
         ∧ ResultDisplay_logs item
           = Normal ((fun log => DecodedView (DecodedLog.eventName log)
                                   (show_args (DecodedLog.args log)))
                     <$> decoded))
  ∧ (∀ (item : CallResult) raws,
       FunctionCallResult.logs item = None →
       FunctionCallResult.rawLogs item = Some raws →
       ResultDisplay_logs item
       = Normal ((fun log => RawView (RawLog.address log)
                               (RawLog.topics log) (RawLog.data log))
                 <$> raws))
  ∧ (∀ values entries,
       show_args (ArgsArray values) = join (js ", ") (String_of <$> values)
       ∧ show_args (ArgsObject entries)
         = join (js ", ")
             ((fun '(key, v) => key ++ js ": " ++ String_of v) <$> entries))
  ∧ (∀ bytecode (p : Page),
       handleFunctionCalls_start (mkInvocation [] bytecode calls) p
       = (p, Returned)).
Proof.
  repeat split.
  - apply decode_logs_Normal.
  - apply decode_logs_Normal.
  - intros i r call log e Hcall Hin Hlog.
    apply (decode_result_field_failure abi calls i r call e Hcall).
    right. by exists log.
  - intros i r item. unfold decode_result.
    destruct (calls !! i) as [call|]; [|done].
    destruct (decodeFunctionResult abi (name call)
                (ExecutionResponse.result r)) as [returned|]; simpl; [|done].
    destruct (decode_logs abi (ExecutionResponse.logs r) []) as [decoded|];
      simpl; [|done].
    intros [= <-]. by exists decoded.
  - intros item raws Hlogs Hraws. unfold ResultDisplay_logs.
    by rewrite Hlogs, Hraws.
Qed.

End ExecutionLane.

(** C10 at a response of the sample service and its reverted twin. *)
Lemma status_fields_ignored_witness :
  Forall2 (same_but_status (H := Sample.externals))
    [Sample.returned_one] [Sample.reverted_one]
  ∧ handleFunctionCalls_settled (Sample.invocation [Sample.get_call])
      (Normal [Sample.returned_one]) Sample.page0
    = handleFunctionCalls_settled (Sample.invocation [Sample.get_call])
        (Normal [Sample.reverted_one]) Sample.page0.
Proof.
  assert (Forall2 (same_but_status (H := Sample.externals))
            [Sample.returned_one] [Sample.reverted_one]) as Hsame.
  { repeat constructor. }
  split; [exact Hsame|].
  exact (proj1 (status_fields_ignored (H := Sample.externals)
                  (Sample.invocation [Sample.get_call])
                  [Sample.returned_one] [Sample.reverted_one] Sample.page0
                  Hsame)).
Defined.

(** C2 as stated fails: the first response decodes on its own, and with
    a second response whose return data does not decode the batch leaves
    no item at all, not even that of the first call. *)
Lemma sibling_failure_drops_batch :
  (∃ item,
     result (handleFunctionCalls_settled
               (Sample.invocation [Sample.get_call; Sample.get_call])
               (Normal [Sample.returned_one]) Sample.page0) = [item])
  ∧ result (handleFunctionCalls_settled
              (Sample.invocation [Sample.get_call; Sample.get_call])
              (Normal [Sample.returned_one; Sample.returned_nothing])
              Sample.page0) = []
  ∧ console (handleFunctionCalls_settled
               (Sample.invocation [Sample.get_call; Sample.get_call])
               (Normal [Sample.returned_one; Sample.returned_nothing])
               Sample.page0)
    = [ConsoleError (js "Execution error:")
         (OtherError (js "AbiDecodingZeroDataError"))].
Proof. split; [eexists; reflexivity|]. split; reflexivity. Qed.

(** C3 as stated fails: a log of no event of the interface is not passed
    through; the decoder throws, no item is stored and nothing of the log
    reaches the display. *)
Lemma foreign_log_not_passed_through :
  Sample.getEvent Sample.storage_abi (js "0xcc") = None
  ∧ result (handleFunctionCalls_settled
              (Sample.invocation [Sample.set_call])
              (Normal [Sample.set_with Sample.foreign_log]) Sample.page0)
    = []
  ∧ console (handleFunctionCalls_settled
               (Sample.invocation [Sample.set_call])
               (Normal [Sample.set_with Sample.foreign_log]) Sample.page0)
    = [ConsoleError (js "Execution error:")
         (OtherError (js "AbiEventSignatureNotFoundError"))].
Proof. split; [reflexivity|]. split; reflexivity. Qed.

(** ** Editing the call list *)

Section CallList.
Context `{Externals}.

(** C6.  Deleting at [index] always succeeds and applies the same
    removal to the call list and to the result list: the entries before
    [index] stay where they are, the entries after it move down by one
    in both lists, so that entries that shared an index before still
    share one afterwards, and the rest of the page is untouched. *)
Theorem delete_keeps_alignment (p : Page) (index : nat) :
  ∃ p',
    handleFunctionCallsChange None index p = Some p'
    ∧ functionCalls p' = delete index (functionCalls p)
    ∧ result p' = delete index (result p)
    ∧ (∀ j, (j < index)%nat →
            functionCalls p' !! j = functionCalls p !! j
            ∧ result p' !! j = result p !! j)
    ∧ (∀ j, (index ≤ j)%nat →
            functionCalls p' !! j = functionCalls p !! S j
            ∧ result p' !! j = result p !! S j)
    ∧ (∀ R : jsstring → CallResult → Prop,
         (∀ j line item,
            functionCalls p !! j = Some line → result p !! j = Some item →
            R line item) →
         ∀ j line item,
           functionCalls p' !! j = Some line → result p' !! j = Some item →
           R line item)
    ∧ solidityCode p' = solidityCode p
    ∧ registry p' = registry p
    ∧ console p' = console p.
Proof.
  eexists. split; [reflexivity|]. simpl.
  repeat split; try done.
  - by apply list_lookup_delete_lt.
  - by apply list_lookup_delete_lt.
  - by apply list_lookup_delete_ge.
  - by apply list_lookup_delete_ge.
  - intros R Haligned j line item.
    destruct (decide (j < index)%nat) as [Hlt|Hge].
    + rewrite !list_lookup_delete_lt by done. apply Haligned.
    + rewrite !list_lookup_delete_ge by lia. apply Haligned.
Qed.

End CallList.

(** ** Timers, requests and events *)

Section Events.
Context `{Externals}.

Lemma nonEmpty_true s : nonEmpty s = true ↔ s ≠ [].
Proof. by destruct s. Qed.

Lemma effect_calls_fires (w : World) :
  bytecode (page w) ≠ [] →
  parse_calls (functionCalls (page w)) ≠ [] →
  effect_calls w
  = debouncedHandleFunctionCalls
      (mkInvocation (abi (page w)) (bytecode (page w))
         (parse_calls (functionCalls (page w)))) w.
Proof.
  intros Hb Hc. unfold effect_calls.
  apply nonEmpty_true in Hb as ->. simpl.
  rewrite bool_decide_true; [done|].
  destruct (parse_calls (functionCalls (page w))); [done | simpl; lia].
Qed.

Lemma effect_calls_idle (w : World) :
  bytecode (page w) = [] ∨ parse_calls (functionCalls (page w)) = [] →
  effect_calls w = w.
Proof.
  intros [Hb | Hc]; unfold effect_calls.
  - by rewrite Hb.
  - rewrite Hc. simpl. by rewrite andb_false_r.
Qed.

Lemma effect_calls_cases (w : World) :
  effect_calls w = w
  ∨ (bytecode (page w) ≠ []
     ∧ parse_calls (functionCalls (page w)) ≠ []
     ∧ effect_calls w
       = debouncedHandleFunctionCalls
           (mkInvocation (abi (page w)) (bytecode (page w))
              (parse_calls (functionCalls (page w)))) w).
Proof.
  destruct (decide (bytecode (page w) = [])) as [Hb|Hb].
  { left. apply effect_calls_idle. by left. }
  destruct (decide (parse_calls (functionCalls (page w)) = [])) as [Hc|Hc].
  { left. apply effect_calls_idle. by right. }
  right. repeat split; [done..|]. by apply effect_calls_fires.
Qed.

Lemma page_effect_calls (w : World) : page (effect_calls w) = page w.
Proof. unfold effect_calls. by case_match. Qed.

Lemma page_rerender old replaced (w : World) :
  page (rerender old replaced w) = page w.
Proof.
  unfold rerender. case_decide; case_match; by rewrite ?page_effect_calls.
Qed.

Lemma lane_holds_work_effect_calls (w : World) :
  lane_holds_work w → lane_holds_work (effect_calls w).
Proof.
  intros [Htimer Hflight].
  destruct (effect_calls_cases w) as [-> | (Hb & Hc & ->)]; [done|].
  split; [|done]. by intros inv [= <-].
Qed.

Lemma lane_holds_work_rerender old replaced (w : World) :
  lane_holds_work w → lane_holds_work (rerender old replaced w).
Proof.
  intros Hw. unfold rerender.
  case_decide; case_match; try apply lane_holds_work_effect_calls; done.
Qed.

(** Every event keeps the lane holding work. *)
Lemma lane_holds_work_step (w w' : World) (ev : Event) :
  lane_holds_work w → step w ev = Some w' → lane_holds_work w'.
Proof.
  intros Hw. pose proof Hw as [Htimer Hflight].
  destruct ev as [text| |e index| |id outcome| |id outcome]; simpl.
  - intros [= <-]. by apply lane_holds_work_rerender.
  - intros [= <-]. by apply lane_holds_work_rerender.
  - destruct (handleFunctionCallsChange e index (page w)); simpl; [|done].
    intros [= <-]. by apply lane_holds_work_rerender.
  - destruct (compileTimer w); simpl; [|done]. by intros [= <-].
  - destruct (compileInFlight w !! id); simpl; [|done].
    intros [= <-]. by apply lane_holds_work_rerender.
  - destruct (execTimer w) as [inv|] eqn:Hinv; simpl; [|done].
    destruct (handleFunctionCalls_start inv (page w)) as [p [|e|body]];
      intros [= <-]; (split; [done|]); simpl; [exact Hflight..|].
    intros id inv' [[_ <-] | [_ Hold]]%lookup_insert_Some.
    + by apply Htimer.
    + by eapply Hflight.
  - destruct (execInFlight w !! id) as [inv|]; simpl; [|done].
    intros [= <-]. split; [done|]. simpl.
    intros id' inv' [_ Hold]%lookup_delete_Some. by eapply Hflight.
Qed.

Lemma lane_holds_work_run (evs : list Event) (w w' : World) :
  lane_holds_work w → run w evs = Some w' → lane_holds_work w'.
Proof.
  revert w; induction evs as [|ev evs IH]; intros w Hw; simpl.
  - by intros [= <-].
  - destruct (step w ev) as [w1|] eqn:Hstep; simpl; [|done].
    apply IH. by eapply lane_holds_work_step.
Qed.

Lemma lane_holds_work_mounted : lane_holds_work mounted.
Proof.
  apply lane_holds_work_effect_calls. split; simpl; [done|].
  intros id inv. by rewrite lookup_empty.
Qed.

Lemma compileSolidity_settled_source outcome (p : Page) :
  solidityCode (compileSolidity_settled outcome p) = solidityCode p.
Proof.
  destruct outcome as [response|e]; simpl.
  - unfold compileSolidity_resolved.
    destruct (last (SolcCompileResponse.data response)); [|done].
    destruct (JSON_parse _) as [parsed|e]; [done|].
    unfold compileSolidity_catch. by destruct e as [[?|]|?].
  - unfold compileSolidity_catch. by destruct e as [[?|]|?].
Qed.

Lemma handleFunctionCallsChange_source e index (p p' : Page) :
  handleFunctionCallsChange e index p = Some p' →
  solidityCode p' = solidityCode p.
Proof.
  destruct e as [v|]; simpl; [|by intros [= <-]].
  repeat case_decide; by intros [= <-].
Qed.

Lemma rerender_calls_replaced old (w : World) :
  solidityCode (page w) = solidityCode old →
  rerender old true w = effect_calls w.
Proof. intros Hsame. unfold rerender. by rewrite decide_True. Qed.

Lemma rerender_bytecode_changed old (w : World) :
  solidityCode (page w) = solidityCode old →
  bytecode (page w) ≠ bytecode old →
  rerender old false w = effect_calls w.
Proof.
  intros Hsame Hchanged. unfold rerender.
  rewrite decide_True by done. by rewrite bool_decide_false.
Qed.


Lemma compileInFlight_effect_calls (w : World) :
  compileInFlight (effect_calls w) = compileInFlight w.
Proof. unfold effect_calls. by case_match. Qed.

Lemma compileInFlight_rerender old replaced (w : World) :
  compileInFlight (rerender old replaced w) = compileInFlight w.
Proof.
  unfold rerender.
  case_decide; case_match; by rewrite ?compileInFlight_effect_calls.
Qed.

Lemma step_CompileSettled (w : World) id code outcome :
  compileInFlight w !! id = Some code →
  ∃ w',
    step w (CompileSettled id outcome) = Some w'
    ∧ page w' = compileSolidity_settled outcome (page w)
    ∧ compileInFlight w' = delete id (compileInFlight w).
Proof.
  intros Hid. simpl. rewrite Hid. simpl. eexists. split; [done|].
  by rewrite page_rerender, compileInFlight_rerender.
Qed.

(** C1, as the code has it.  Neither lane compares a response with what
    was issued since: the response of any request in flight, the latest
    or not, is applied when it arrives.  A compile response updates the
    page as [compileSolidity] does from its [await] on, so of two compile
    requests in flight the one whose response arrives last decides what
    is held, whichever was issued first; an execution response updates
    the page as [handleFunctionCalls] does, with the interface and the
    calls that its invocation captured.  What a newer edit or a newer
    schedule cancels is the timer that has not fired: the edit replaces
    the pending compile timer, the debounced call replaces the pending
    invocation. *)
Theorem settled_response_is_applied (w : World) (id later : nat) :
  (∀ code outcome,
     compileInFlight w !! id = Some code →
     ∃ w',
       step w (CompileSettled id outcome) = Some w'
       ∧ page w' = compileSolidity_settled outcome (page w))
  ∧ (∀ code code' outcome outcome',
       id ≠ later →
       compileInFlight w !! id = Some code →
       compileInFlight w !! later = Some code' →
       ∃ w1 w2,
         step w (CompileSettled later outcome') = Some w1
         ∧ step w1 (CompileSettled id outcome) = Some w2
         ∧ page w2
           = compileSolidity_settled outcome
               (compileSolidity_settled outcome' (page w)))
  ∧ (∀ inv outcome,
       execInFlight w !! id = Some inv →
       ∃ w',
         step w (ExecSettled id outcome) = Some w'
         ∧ page w' = handleFunctionCalls_settled inv outcome (page w))
  ∧ (∀ text,
       text ≠ solidityCode (page w) →
       ∃ w',
         step w (Typed text) = Some w'
         ∧ compileTimer w' = Some text
         ∧ compileInFlight w' = compileInFlight w)
  ∧ (∀ inv,
       execTimer (debouncedHandleFunctionCalls inv w) = Some inv
       ∧ execInFlight (debouncedHandleFunctionCalls inv w) = execInFlight w).
Proof.
  split; [|split; [|split; [|split]]].
  - intros code outcome Hid.
    destruct (step_CompileSettled w id code outcome Hid) as (w' & ? & ? & _).
    by exists w'.
  - intros code code' outcome outcome' Hne Hid Hlater.
    destruct (step_CompileSettled w later code' outcome' Hlater)
      as (w1 & Hstep1 & Hpage1 & Hflight1).
    destruct (step_CompileSettled w1 id code outcome) as (w2 & Hstep2 & Hpage2 & _).
    { rewrite Hflight1. by rewrite lookup_delete_ne. }
    exists w1, w2. by rewrite Hpage2, Hpage1.
  - intros inv outcome Hid. simpl. rewrite Hid. simpl.
    eexists. by split.
  - intros text Hnew. simpl. eexists. split; [done|].
    unfold rerender. simpl. rewrite decide_False by done.
    unfold effect_compile. simpl. by rewrite bool_decide_true.
  - done.
Qed.

Lemma encode_calls_first_failure abi before call after e calls :
  Forall (fun c => ∃ data,
            encodeFunctionData abi (name c) (args c) = Normal data) before →
  encodeFunctionData abi (name call) (args call) = Throw e →
  encode_calls abi (before ++ call :: after) calls = Throw e.
Proof.
  intros Hbefore Hcall. revert calls.
  induction Hbefore as [|c before [data Hc] _ IH]; intros calls; simpl.
  - by rewrite Hcall.
  - rewrite Hc. simpl. apply IH.
Qed.

(** C7, as the code has it.  The encoder runs before the [try]: when it
    throws for a call of the invocation, the exception rejects the
    promise of [handleFunctionCalls] and no handler takes it.  The
    console gets the line the handler writes on entry and no error line,
    no request is posted, and the page, its result list included, is
    otherwise as before. *)
Theorem encoder_failure_rejects (w : World) (inv : Invocation)
    (before after : list ParsedCall) (call : ParsedCall) (e : JsError) :
  execTimer w = Some inv →
  its_abi inv ≠ [] →
  parsedCalls inv = before ++ call :: after →
  Forall (fun c => ∃ data,
            encodeFunctionData (its_abi inv) (name c) (args c) = Normal data)
    before →
  encodeFunctionData (its_abi inv) (name call) (args call) = Throw e →
  ∃ w',
    step w ExecTimerFired = Some w'
    ∧ unhandled w' = unhandled w ++ [e]
    ∧ page w'
      = console_write (ConsoleLog (js "in handle function calls")) (page w)
    ∧ result (page w') = result (page w)
    ∧ execInFlight w' = execInFlight w
    ∧ execIssued w' = execIssued w.
Proof.
  intros Htimer Habi Hcalls Hbefore Hcall. simpl. rewrite Htimer. simpl.
  unfold handleFunctionCalls_start.
  destruct (its_abi inv) as [|item abi'] eqn:Hitems; [done|].
  rewrite Hcalls, (encode_calls_first_failure _ _ _ _ e _ Hbefore Hcall).
  eexists. by repeat split.
Qed.

End Events.

(** C1 as stated fails: the first compile request is still in flight
    when the source is edited and a second request is posted, which
    resolves first.  When the response of the first, superseded, request
    arrives, it replaces the interface, the bytecode and the diagnostics
    that the second response had set. *)
Lemma stale_compile_response_applied :
  ∃ w1 w2 : @World Sample.externals,
    run Sample.mounted0 Sample.overtaking_events = Some w1
    ∧ compileInFlight w1 !! 0%nat = Some (PRAGMA ++ defaultSolidityCode)
    ∧ superseded (compileIssued w1) 0
    ∧ registry (page w1) = (Sample.counter_abi, js "0x6080bb", [])
    ∧ step w1 (CompileSettled 0 (Normal Sample.storage_response)) = Some w2
    ∧ registry (page w2)
      = (Sample.storage_abi, js "0x6080aa", [Sample.warning]).
Proof.
  eexists. eexists.
  split; [vm_compute; reflexivity|].
  split; [vm_compute; reflexivity|].
  split; [unfold superseded; simpl; lia|].
  split; [vm_compute; reflexivity|].
  split; [vm_compute; reflexivity|].
  vm_compute; reflexivity.
Qed.

(** C7 at the world in which a call of the unknown function [foo] waits
    for its timer. *)
Lemma encoder_failure_rejects_witness :
  execTimer Sample.foo_world
    = Some (Sample.invocation
              [Sample.get_call; Sample.set_call; Sample.get_call;
               Sample.block_call; Sample.foo_call])
  ∧ Sample.encode Sample.storage_abi (js "foo") []
    = Throw (OtherError (js "AbiFunctionNotFoundError"))
  ∧ ∃ w',
      step Sample.foo_world ExecTimerFired = Some w'
      ∧ unhandled w'
        = unhandled Sample.foo_world
          ++ [OtherError (js "AbiFunctionNotFoundError")]
      ∧ page w'
        = console_write (ConsoleLog (js "in handle function calls"))
            (page Sample.foo_world)
      ∧ result (page w') = result (page Sample.foo_world)
      ∧ execInFlight w' = execInFlight Sample.foo_world
      ∧ execIssued w' = execIssued Sample.foo_world.
Proof.
  split; [vm_compute; reflexivity|]. split; [reflexivity|].
  apply (encoder_failure_rejects (H := Sample.externals) Sample.foo_world
           (Sample.invocation
              [Sample.get_call; Sample.set_call; Sample.get_call;
               Sample.block_call; Sample.foo_call])
           [Sample.get_call; Sample.set_call; Sample.get_call;
            Sample.block_call]
           [] Sample.foo_call (OtherError (js "AbiFunctionNotFoundError"))).
  - vm_compute; reflexivity.
  - discriminate.
  - reflexivity.
  - repeat constructor; eexists; reflexivity.
  - reflexivity.
Defined.

(** C7 as stated fails: after the encoder threw for [foo()], the console
    holds the entry line of the handler and no error line; the exception
    is a rejection that nothing handled. *)
Lemma encoder_failure_not_logged :
  run Sample.mounted0 Sample.foo_events = Some Sample.foo_world
  ∧ ∃ w',
      step Sample.foo_world ExecTimerFired = Some w'
      ∧ console (page w') = [ConsoleLog (js "in handle function calls")]
      ∧ (∀ label e, ConsoleError label e ∉ console (page w'))
      ∧ unhandled w' = [OtherError (js "AbiFunctionNotFoundError")]
      ∧ result (page w') = [].
Proof.
  split; [vm_compute; reflexivity|].
  eexists. split; [vm_compute; reflexivity|].
  split; [vm_compute; reflexivity|].
  split; [|split; vm_compute; reflexivity].
  intros label e Hin. simpl in Hin.
  apply list_elem_of_singleton in Hin. discriminate Hin.
Qed.

(** The calls [set(1)] and [get()] of the default list against the sample
    service: the first has no return value and one decoded log, the
    second shows its return data. *)
Example decode_set_and_get :
  result (handleFunctionCalls_settled
            (Sample.invocation [Sample.set_call; Sample.get_call])
            (Normal [Sample.set_with Sample.known_log; Sample.returned_one])
            Sample.page0)
  = [ FunctionCallResult.mk (js "set") (js "43210") None
        (Some [DecodedLog.mk (js "StoredDataUpdated")
                 (ArgsArray [js "0x01"])])
        None None;
      FunctionCallResult.mk (js "get") (js "23456") (Some (js "0x01"))
        (Some []) None None ].
Proof. reflexivity. Qed.

Example display_decoded_log :
  ResultDisplay_logs (H := Sample.externals)
    (FunctionCallResult.mk (js "set") (js "43210") None
       (Some [DecodedLog.mk (js "StoredDataUpdated")
                (ArgsArray [js "0x01"; js "0x02"])])
       None None)
  = Normal [DecodedView (js "StoredDataUpdated") (js "0x01, 0x02")].
Proof. reflexivity. Qed.

(** * Further properties *)

(** ** The call parser *)

Lemma dropWhile_head p s c : head (dropWhile p s) = Some c → p c = false.
Proof.
  induction s as [|d s IH]; simpl; [done|].
  destruct (p d) eqn:Hd; [done|]. simpl. by intros [= <-].
Qed.

Lemma dropWhile_suffix p s : ∃ a, s = a ++ dropWhile p s.
Proof.
  induction s as [|d s [a IH]]; simpl; [by exists []|].
  destruct (p d); [|by exists []]. exists (d :: a). simpl. by f_equal.
Qed.

Lemma dropWhile_elem p s c : c ∈ dropWhile p s → c ∈ s.
Proof.
  destruct (dropWhile_suffix p s) as [a Ha]. intros Hin.
  rewrite Ha. apply elem_of_app. by right.
Qed.

Lemma dropWhile_last p s c :
  last (dropWhile p s) = Some c → last s = Some c.
Proof.
  destruct (dropWhile_suffix p s) as [a Ha]. intros Hlast.
  rewrite Ha, last_app. by rewrite Hlast.
Qed.

Lemma last_rev (s : jsstring) : last (rev s) = head s.
Proof. destruct s as [|c s]; simpl; [done|]. by rewrite last_snoc. Qed.

Lemma head_rev (s : jsstring) : head (rev s) = last s.
Proof. by rewrite <- (rev_involutive s) at 2; rewrite last_rev. Qed.

Lemma elem_of_rev (s : jsstring) c : c ∈ rev s ↔ c ∈ s.
Proof. rewrite !list_elem_of_In. symmetry. apply in_rev. Qed.

Lemma trim_trimmed s : trimmed (trim s).
Proof.
  unfold trimmed, trim. split; intros c.
  - rewrite head_rev. intros Hc%dropWhile_last.
    rewrite last_rev in Hc. by apply dropWhile_head in Hc.
  - rewrite last_rev. apply dropWhile_head.
Qed.

Lemma trim_elem s c : c ∈ trim s → c ∈ s.
Proof.
  unfold trim. intros Hc.
  apply (proj1 (elem_of_rev _ _)), dropWhile_elem in Hc.
  by apply (proj1 (elem_of_rev _ _)), dropWhile_elem in Hc.
Qed.

Lemma join_elem sep (xs : list jsstring) x c :
  x ∈ xs → c ∈ x → c ∈ join sep xs.
Proof.
  induction xs as [|y ys IH]; [by intros ?%elem_of_nil|].
  intros [->|Hin]%elem_of_cons Hc.
  - destruct ys; simpl; [done|]. apply elem_of_app. by left.
  - specialize (IH Hin Hc). destruct ys as [|z zs]; [by apply elem_of_nil in Hin|].
    change (c ∈ y ++ sep ++ join sep (z :: zs)).
    rewrite !elem_of_app. by right; right.
Qed.

Lemma split_args_well_formed group2 :
  Forall (fun ch => isDotChar ch = true) group2 →
  Forall (fun arg =>
            arg ≠ [] ∧ (COMMA ∉ arg)
            ∧ Forall (fun ch => isDotChar ch = true) arg
            ∧ trimmed arg) (split_args group2).
Proof.
  intros Hdot. apply Forall_forall. intros arg.
  unfold split_args.
  intros [Hne (piece & -> & Hpiece)%list_elem_of_fmap]%list_elem_of_filter.
  split; [by destruct (trim piece)|].
  pose proof (split_comma_pieces group2) as Hpieces.
  rewrite Forall_forall in Hpieces.
  split; [|split; [|apply trim_trimmed]].
  - intros Hc%trim_elem. by apply (Hpieces piece).
  - apply Forall_forall. intros c Hc%trim_elem.
    rewrite Forall_forall in Hdot. apply Hdot.
    rewrite <- (split_comma_join group2). by eapply join_elem.
Qed.

Lemma parse_line_well_formed line :
  Forall well_formed_call (parse_line [] line).
Proof.
  unfold parse_line.
  destruct (regex_match line) as [[n g]|] eqn:Hm; [|constructor].
  destruct (regex_match_Some _ _ _ Hm)
    as (pre & post & (_ & Hne & Hword & Hdot) & _).
  repeat constructor; simpl; [done..|]. by apply split_args_well_formed.
Qed.

(** X1.  Every call the parser makes of any call list is well formed. *)
Theorem parse_calls_well_formed (functionCalls : list jsstring) :
  Forall well_formed_call (parse_calls functionCalls).
Proof.
  unfold parse_calls. rewrite (parse_calls_from []). simpl.
  apply Forall_concat, Forall_fmap, Forall_forall.
  intros line _. apply parse_line_well_formed.
Qed.

Lemma parse_line_at_most_one line : (length (parse_line [] line) ≤ 1)%nat.
Proof.
  unfold parse_line. destruct (regex_match line) as [[n g]|]; simpl; lia.
Qed.

(** X2.  Parsing two call lists one after the other gives the calls of
    the first followed by the calls of the second, and a call list never
    gives more calls than it has lines. *)
Theorem parse_calls_app (lines1 lines2 : list jsstring) :
  parse_calls (lines1 ++ lines2) = parse_calls lines1 ++ parse_calls lines2
  ∧ (length (parse_calls lines1) ≤ length lines1)%nat.
Proof.
  unfold parse_calls. rewrite !(parse_calls_from []). simpl. split.
  - by rewrite fmap_app, concat_app.
  - induction lines1 as [|line lines IH]; [done|].
    rewrite fmap_cons, concat_cons, length_app, length_cons.
    pose proof (parse_line_at_most_one line). lia.
Qed.

Lemma parse_line_no_parenthesis line :
  LPAREN ∉ line ∨ RPAREN ∉ line → parse_line [] line = [].
Proof.
  intros Hno. unfold parse_line.
  destruct (regex_match line) as [[n g]|] eqn:Hm; [|done].
  destruct (regex_match_Some _ _ _ Hm) as (pre & post & (-> & _) & _).
  exfalso. destruct Hno as [Hno|Hno]; apply Hno.
  - rewrite !elem_of_app. right; right. apply elem_of_cons. by left.
  - rewrite !elem_of_app. right; right. apply elem_of_cons. right.
    rewrite elem_of_app. right. apply elem_of_cons. by left.
Qed.

(** X3.  A line that lacks an opening or a closing parenthesis gives no
    call, wherever it stands in the call list. *)
Theorem line_without_parenthesis_skipped (before after : list jsstring)
    (line : jsstring) :
  LPAREN ∉ line ∨ RPAREN ∉ line →
  parse_calls (before ++ line :: after) = parse_calls (before ++ after).
Proof.
  intros Hline%parse_line_no_parenthesis.
  unfold parse_calls. rewrite !(parse_calls_from []). simpl.
  by rewrite !fmap_app, !concat_app, fmap_cons, concat_cons, Hline.
Qed.

(** X3 at the line [foobar] between two calls. *)
Lemma line_without_parenthesis_skipped_witness :
  (LPAREN ∉ js "foobar" ∨ RPAREN ∉ js "foobar")
  ∧ parse_calls ([js "get()"] ++ js "foobar" :: [js "set(1)"])
    = parse_calls ([js "get()"] ++ [js "set(1)"]).
Proof.
  assert (LPAREN ∉ js "foobar" ∨ RPAREN ∉ js "foobar") as Hno.
  { left. intros Hin. apply list_elem_of_In in Hin. simpl in Hin.
    repeat (destruct Hin as [Hin|Hin]; [discriminate Hin|]). exact Hin. }
  split; [exact Hno|].
  exact (line_without_parenthesis_skipped [js "get()"] [js "set(1)"]
           (js "foobar") Hno).
Defined.

(** ** Editing the call list *)

Section CallListMore.
Context `{Externals}.

Lemma delete_beyond {A} (l : list A) n : (length l ≤ n)%nat → delete n l = l.
Proof.
  revert n; induction l as [|x l IH]; intros n Hn; [by destruct n|].
  destruct n as [|n]; simpl in *; [lia|]. f_equal. apply IH. lia.
Qed.

Lemma delete_inserted {A} (l : list A) n x :
  delete n (<[n := x]> l) = delete n l.
Proof.
  revert n; induction l as [|y l IH]; intros [|n]; simpl; try done.
  f_equal. apply IH.
Qed.

Lemma parse_calls_snoc_empty (lines : list jsstring) :
  parse_calls (lines ++ [[]]) = parse_calls lines.
Proof.
  unfold parse_calls. rewrite !(parse_calls_from []). simpl.
  rewrite fmap_app, concat_app. simpl. by rewrite !app_nil_r.
Qed.

(** X4.  Adding a call appends an empty line, which parses to nothing:
    the parsed calls, the result list and the registry are as before.
    The effect still runs: with bytecode and at least one parsed call it
    arms the debounced invocation anew with the same calls, otherwise it
    leaves the lane alone. *)
Theorem add_call_keeps_parsed_calls (w : World) :
  ∃ w',
    step w AddClicked = Some w'
    ∧ functionCalls (page w') = functionCalls (page w) ++ [[]]
    ∧ parse_calls (functionCalls (page w'))
      = parse_calls (functionCalls (page w))
    ∧ result (page w') = result (page w)
    ∧ registry (page w') = registry (page w)
    ∧ (bytecode (page w) ≠ [] →
       parse_calls (functionCalls (page w)) ≠ [] →
       execTimer w'
       = Some (mkInvocation (abi (page w)) (bytecode (page w))
                 (parse_calls (functionCalls (page w)))))
    ∧ (bytecode (page w) = [] ∨ parse_calls (functionCalls (page w)) = [] →
       execTimer w' = execTimer w).
Proof.
  eexists. split; [done|]. simpl.
  rewrite rerender_calls_replaced by done.
  rewrite page_effect_calls. simpl.
  repeat split; try done.
  - apply parse_calls_snoc_empty.
  - intros Hb Hc. rewrite effect_calls_fires; simpl;
      rewrite ?parse_calls_snoc_empty; done.
  - intros Hidle. rewrite effect_calls_idle; simpl;
      rewrite ?parse_calls_snoc_empty; done.
Qed.

(** X12.  On a page whose result list is not longer than its call list,
    adding a call and then deleting the added entry gives the page back
    as it was. *)
Theorem add_then_delete_restores (p : Page) :
  (length (result p) ≤ length (functionCalls p))%nat →
  handleFunctionCallsChange None (length (functionCalls p))
    (addFunctionCall p) = Some p.
Proof.
  intros Hlen. destruct p as [src calls bc a res errs con]. simpl in *.
  unfold setFunctionCalls, setResult, addFunctionCall, setFunctionCalls.
  simpl. do 2 f_equal.
  - rewrite delete_middle. apply app_nil_r.
  - by apply delete_beyond.
Qed.

(** X13.  Editing the line at an index of the call list replaces that
    line and nothing else: the other lines, the length of the list, the
    result list and the registry stay.  Of two edits of the same line the
    later one counts, and deleting the line after editing it is the same
    as deleting it straight away. *)
Theorem edit_call_changes_one_line (p : Page) (index : nat)
    (target_value : jsstring) :
  (index < length (functionCalls p))%nat →
  ∃ p',
    handleFunctionCallsChange (Some target_value) index p = Some p'
    ∧ functionCalls p' !! index = Some target_value
    ∧ (∀ j, j ≠ index → functionCalls p' !! j = functionCalls p !! j)
    ∧ length (functionCalls p') = length (functionCalls p)
    ∧ result p' = result p
    ∧ registry p' = registry p
    ∧ (∀ later,
         handleFunctionCallsChange (Some later) index p'
         = handleFunctionCallsChange (Some later) index p)
    ∧ handleFunctionCallsChange None index p'
      = handleFunctionCallsChange None index p.
Proof.
  intros Hindex. simpl. rewrite decide_True by done.
  eexists. split; [done|]. simpl. repeat split.
  - by apply list_lookup_insert_eq.
  - intros j Hj. by apply list_lookup_insert_ne.
  - apply length_insert.
  - intros later. rewrite length_insert, !decide_True by done.
    unfold setFunctionCalls. simpl. by rewrite list_insert_insert_eq.
  - unfold setFunctionCalls, setResult. simpl. by rewrite delete_inserted.
Qed.

End CallListMore.

(** X12 at the first page. *)
Lemma add_then_delete_restores_witness :
  (length (result Sample.page0) ≤ length (functionCalls Sample.page0))%nat
  ∧ handleFunctionCallsChange None (length (functionCalls Sample.page0))
      (addFunctionCall Sample.page0) = Some Sample.page0.
Proof.
  assert (length (result Sample.page0)
          ≤ length (functionCalls Sample.page0))%nat as Hlen
    by (simpl; lia).
  split; [exact Hlen|].
  exact (add_then_delete_restores (H := Sample.externals) Sample.page0 Hlen).
Defined.

(** X13 at the second line of the first page. *)
Lemma edit_call_changes_one_line_witness :
  (1 < length (functionCalls Sample.page0))%nat
  ∧ ∃ p',
      handleFunctionCallsChange (Some (js "set(2)")) 1 Sample.page0 = Some p'
      ∧ functionCalls p'
        = [js "get()"; js "set(2)"; js "get()"; js "getBlockNumber()"].
Proof.
  assert (1 < length (functionCalls Sample.page0))%nat as Hindex
    by (simpl; lia).
  split; [exact Hindex|].
  destruct (edit_call_changes_one_line (H := Sample.externals) Sample.page0
              1 (js "set(2)") Hindex) as (p' & Hp' & _).
  exists p'. split; [exact Hp'|].
  simpl in Hp'. injection Hp' as <-. reflexivity.
Defined.

(** ** The compile lane *)

Section CompileLaneMore.
Context `{Externals}.

Lemma rerender_idle old (w : World) :
  solidityCode (page w) = solidityCode old →
  bytecode (page w) = bytecode old →
  rerender old false w = w.
Proof.
  intros Hsource Hbytecode. unfold rerender.
  rewrite decide_True by done. by rewrite bool_decide_true.
Qed.

(** X5.  A compile response without units, as the service gives for a
    source with errors, replaces the diagnostics and nothing else: the
    interface and the bytecode of the last good compile stay, and the
    execution lane is not triggered. *)
Theorem compile_without_units_keeps_interface (w : World) (id : nat)
    (code : jsstring) (response : SolcCompileResponse.t) :
  compileInFlight w !! id = Some code →
  SolcCompileResponse.data response = [] →
  ∃ w',
    step w (CompileSettled id (Normal response)) = Some w'
    ∧ page w'
      = setCompilationErrors (SolcCompileResponse.errors response) (page w)
    ∧ abi (page w') = abi (page w)
    ∧ bytecode (page w') = bytecode (page w)
    ∧ execTimer w' = execTimer w
    ∧ execInFlight w' = execInFlight w.
Proof.
  intros Hid Hdata. simpl. rewrite Hid. simpl.
  unfold compileSolidity_resolved. rewrite Hdata. simpl.
  rewrite rerender_idle by done. eexists. by repeat split.
Qed.

(** X6.  When the interface text of the last unit of a compile response
    does not parse, the page is left half updated: the bytecode is that
    of the unit, the interface is the old one, the exception is written
    to the console, and, the exception not being one of the transport,
    the diagnostics of the response are not stored.  If the bytecode
    changed and there are parsed calls, the execution lane is armed with
    the new bytecode and the old interface. *)
Theorem compile_unparsable_abi_half_update (w : World) (id : nat)
    (code description : jsstring) (response : SolcCompileResponse.t)
    (units : list ContractData.t) (lastContract : ContractData.t) :
  compileInFlight w !! id = Some code →
  SolcCompileResponse.data response = units ++ [lastContract] →
  JSON_parse (ContractData.abi lastContract)
    = Throw (OtherError description) →
  ∃ w',
    step w (CompileSettled id (Normal response)) = Some w'
    ∧ bytecode (page w') = ContractData.bytecode lastContract
    ∧ abi (page w') = abi (page w)
    ∧ compilationErrors (page w') = compilationErrors (page w)
    ∧ console (page w')
      = console (page w)
        ++ [ConsoleError (js "Compilation error:") (OtherError description)]
    ∧ result (page w') = result (page w)
    ∧ (ContractData.bytecode lastContract ≠ bytecode (page w) →
       ContractData.bytecode lastContract ≠ [] →
       parse_calls (functionCalls (page w)) ≠ [] →
       execTimer w'
       = Some (mkInvocation (abi (page w))
                 (ContractData.bytecode lastContract)
                 (parse_calls (functionCalls (page w))))).
Proof.
  intros Hid Hdata Hparse.
  destruct (step_CompileSettled w id code (Normal response) Hid)
    as (w' & Hstep & Hpage & _).
  exists w'. split; [done|].
  assert (page w'
          = console_write
              (ConsoleError (js "Compilation error:") (OtherError description))
              (setBytecode (ContractData.bytecode lastContract) (page w)))
    as Hpage'.
  { rewrite Hpage. simpl. unfold compileSolidity_resolved.
    by rewrite Hdata, last_snoc, Hparse. }
  rewrite Hpage'. repeat split.
  intros Hchanged Hbytecode Hcalls.
  simpl in Hstep. rewrite Hid in Hstep. simpl in Hstep.
  injection Hstep as <-.
  rewrite rerender_bytecode_changed.
  - rewrite effect_calls_fires; simpl; unfold compileSolidity_resolved;
      rewrite Hdata, last_snoc, Hparse; done.
  - apply (compileSolidity_settled_source (Normal response)).
  - simpl. unfold compileSolidity_resolved.
    by rewrite Hdata, last_snoc, Hparse.
Qed.

Lemma compileSolidity_settled_frame outcome (p : Page) :
  result (compileSolidity_settled outcome p) = result p
  ∧ functionCalls (compileSolidity_settled outcome p) = functionCalls p.
Proof.
  destruct outcome as [response|e]; simpl.
  - unfold compileSolidity_resolved.
    destruct (last (SolcCompileResponse.data response)); [|done].
    destruct (JSON_parse _) as [parsed|e]; [done|].
    unfold compileSolidity_catch. by destruct e as [[?|]|?].
  - unfold compileSolidity_catch. by destruct e as [[?|]|?].
Qed.

Lemma compileSolidity_settled_registry outcome (p q : Page) :
  registry p = registry q →
  registry (compileSolidity_settled outcome p)
  = registry (compileSolidity_settled outcome q).
Proof.
  unfold registry. intros [= Habi Hbytecode Herrors].
  destruct outcome as [response|e]; simpl.
  - unfold compileSolidity_resolved.
    destruct (last (SolcCompileResponse.data response)); simpl;
      [|by rewrite Habi, Hbytecode].
    destruct (JSON_parse _) as [parsed|e]; [done|].
    unfold compileSolidity_catch.
    destruct e as [[?|]|?]; simpl; by rewrite ?Habi, ?Herrors.
  - unfold compileSolidity_catch.
    destruct e as [[?|]|?]; simpl; by rewrite ?Habi, ?Hbytecode, ?Herrors.
Qed.

Lemma handleFunctionCalls_settled_cases inv outcome (p : Page) :
  (∃ output, handleFunctionCalls_settled inv outcome p = setResult output p)
  ∨ (∃ e,
       handleFunctionCalls_settled inv outcome p
       = console_write (ConsoleError (js "Execution error:") e) p).
Proof.
  unfold handleFunctionCalls_settled.
  destruct (_ ≫= _) as [output|e]; [left; by exists output | right; by exists e].
Qed.

(** X7.  The two lanes write different cells.  A compile response never
    touches the result list or the call list; an execution response
    never touches the interface, the bytecode, the diagnostics or the
    call list: it either replaces the result list or writes one error
    line to the console.  So a compile response and an execution
    response that arrive in either order leave the same registry and the
    same result list, and what the decoder makes of a response does not
    depend on the interface held when it arrives. *)
Theorem lanes_write_disjoint_cells (inv : Invocation)
    (compiled : Completion SolcCompileResponse.t)
    (executed : Completion (list Response)) (p : Page) :
  result (compileSolidity_settled compiled p) = result p
  ∧ functionCalls (compileSolidity_settled compiled p) = functionCalls p
  ∧ registry (handleFunctionCalls_settled inv executed p) = registry p
  ∧ functionCalls (handleFunctionCalls_settled inv executed p)
    = functionCalls p
  ∧ ((∃ output,
        handleFunctionCalls_settled inv executed p = setResult output p)
     ∨ (∃ e,
          handleFunctionCalls_settled inv executed p
          = console_write (ConsoleError (js "Execution error:") e) p))
  ∧ registry
      (compileSolidity_settled compiled
         (handleFunctionCalls_settled inv executed p))
    = registry
        (handleFunctionCalls_settled inv executed
           (compileSolidity_settled compiled p))
  ∧ result
      (compileSolidity_settled compiled
         (handleFunctionCalls_settled inv executed p))
    = result
        (handleFunctionCalls_settled inv executed
           (compileSolidity_settled compiled p))
  ∧ (∀ a b,
       result (handleFunctionCalls_settled inv executed
                 (setAbi a (setBytecode b p)))
       = result (handleFunctionCalls_settled inv executed p)).
Proof.
  destruct (compileSolidity_settled_frame compiled p) as [Hres Hcalls].
  split; [done|]. split; [done|].
  assert (∀ q : Page,
            registry (handleFunctionCalls_settled inv executed q) = registry q
            ∧ functionCalls (handleFunctionCalls_settled inv executed q)
              = functionCalls q) as Hexec.
  { intros q.
    destruct (handleFunctionCalls_settled_cases inv executed q)
      as [[output ->] | [e ->]]; done. }
  split; [apply Hexec|]. split; [apply Hexec|].
  split; [apply handleFunctionCalls_settled_cases|].
  split; [|split].
  - rewrite (proj1 (Hexec _)). apply compileSolidity_settled_registry.
    apply Hexec.
  - rewrite (proj1 (compileSolidity_settled_frame _ _)).
    unfold handleFunctionCalls_settled.
    destruct (_ ≫= _) as [output|e]; simpl; [done|]. by rewrite Hres.
  - intros a b. unfold handleFunctionCalls_settled.
    by destruct (_ ≫= _) as [output|e].
Qed.

End CompileLaneMore.

(** X5 at the world with a compile request in flight, answered with a
    syntax error and no unit. *)
Lemma compile_without_units_keeps_interface_witness :
  compileInFlight Cases.busy_world !! 1%nat
    = Some (PRAGMA ++ Sample.counter_source)
  ∧ SolcCompileResponse.data Cases.failed_response = []
  ∧ ∃ w',
      step Cases.busy_world (CompileSettled 1 (Normal Cases.failed_response))
        = Some w'
      ∧ registry (page w')
        = (Sample.storage_abi, js "0x6080aa", [Cases.syntax_error]).
Proof.
  assert (compileInFlight Cases.busy_world !! 1%nat
          = Some (PRAGMA ++ Sample.counter_source)) as Hid
    by (vm_compute; reflexivity).
  split; [exact Hid|]. split; [reflexivity|].
  destruct (compile_without_units_keeps_interface (H := Sample.externals)
              Cases.busy_world 1 _ Cases.failed_response Hid eq_refl)
    as (w' & Hstep & Hpage & _).
  exists w'. split; [exact Hstep|]. rewrite Hpage. vm_compute. reflexivity.
Defined.

(** X6 at the same world, answered with a unit whose interface text is
    cut short. *)
Lemma compile_unparsable_abi_half_update_witness :
  compileInFlight Cases.busy_world !! 1%nat
    = Some (PRAGMA ++ Sample.counter_source)
  ∧ SolcCompileResponse.data Cases.broken_response
    = [Sample.storage_unit] ++ [Cases.broken_unit]
  ∧ Sample.parse (ContractData.abi Cases.broken_unit)
    = Throw (OtherError (js "SyntaxError"))
  ∧ ∃ w',
      step Cases.busy_world (CompileSettled 1 (Normal Cases.broken_response))
        = Some w'
      ∧ bytecode (page w') = js "0x6080cc"
      ∧ abi (page w') = abi (page Cases.busy_world).
Proof.
  assert (compileInFlight Cases.busy_world !! 1%nat
          = Some (PRAGMA ++ Sample.counter_source)) as Hid
    by (vm_compute; reflexivity).
  split; [exact Hid|]. split; [reflexivity|]. split; [reflexivity|].
  destruct (compile_unparsable_abi_half_update (H := Sample.externals)
              Cases.busy_world 1 _ (js "SyntaxError") Cases.broken_response
              [Sample.storage_unit] Cases.broken_unit Hid eq_refl eq_refl)
    as (w' & Hstep & Hbytecode & Habi & _).
  exists w'. split; [exact Hstep|]. split; [exact Hbytecode | exact Habi].
Defined.

(** ** Invariants of the event loop *)

Section Invariants.
Context `{Externals}.

Lemma compile_lane_current_effect_calls (w : World) :
  compile_lane_current w → compile_lane_current (effect_calls w).
Proof.
  destruct (effect_calls_cases w) as [-> | (_ & _ & ->)]; [done|].
  by intros [Htimer Hflight].
Qed.

Lemma compile_lane_current_rerender old replaced (w : World) :
  (∀ id code,
     compileInFlight w !! id = Some code → ∃ source, code = PRAGMA ++ source) →
  (solidityCode (page w) = solidityCode old →
   ∀ code, compileTimer w = Some code → code = solidityCode (page w)) →
  compile_lane_current (rerender old replaced w).
Proof.
  intros Hflight Htimer. unfold rerender.
  case_decide; case_match;
    try apply compile_lane_current_effect_calls;
    (split; [|done]); simpl; try (by apply Htimer); by intros code [= <-].
Qed.

Lemma compile_lane_current_step (w w' : World) (ev : Event) :
  compile_lane_current w → step w ev = Some w' → compile_lane_current w'.
Proof.
  intros [Htimer Hflight].
  destruct ev as [text| |e index| |id outcome| |id outcome]; simpl.
  - intros [= <-]. apply compile_lane_current_rerender; simpl; [done|].
    intros Hsame code Hcode. rewrite Hsame. by apply Htimer.
  - intros [= <-]. apply compile_lane_current_rerender; simpl; done.
  - destruct (handleFunctionCallsChange e index (page w)) as [p|] eqn:Hp;
      simpl; [|done].
    intros [= <-]. apply compile_lane_current_rerender; simpl; [done|].
    intros _ code Hcode.
    rewrite (handleFunctionCallsChange_source _ _ _ _ Hp). by apply Htimer.
  - destruct (compileTimer w) as [code|] eqn:Hcode; simpl; [|done].
    intros [= <-]. split; simpl; [done|].
    intros id code' [[_ <-] | [_ Hold]]%lookup_insert_Some.
    + by exists code.
    + by eapply Hflight.
  - destruct (compileInFlight w !! id); simpl; [|done].
    intros [= <-]. apply compile_lane_current_rerender; simpl.
    + intros id' code' [_ Hold]%lookup_delete_Some. by eapply Hflight.
    + intros _ code Hcode.
      rewrite (compileSolidity_settled_source outcome). by apply Htimer.
  - destruct (execTimer w) as [inv|]; simpl; [|done].
    unfold handleFunctionCalls_start.
    destruct (its_abi inv); [by intros [= <-]|].
    destruct (encode_calls _ _ _); by intros [= <-].
  - destruct (execInFlight w !! id) as [inv|]; simpl; [|done].
    intros [= <-]. split; simpl; [|done].
    destruct (handleFunctionCalls_settled_cases inv outcome (page w))
      as [[output ->] | [e ->]]; done.
Qed.

Lemma compile_lane_current_run (evs : list Event) (w w' : World) :
  compile_lane_current w → run w evs = Some w' → compile_lane_current w'.
Proof.
  revert w; induction evs as [|ev evs IH]; intros w Hw; simpl.
  - by intros [= <-].
  - destruct (step w ev) as [w1|] eqn:Hstep; simpl; [|done].
    apply IH. by eapply compile_lane_current_step.
Qed.

Lemma compile_lane_current_mounted : compile_lane_current mounted.
Proof.
  apply compile_lane_current_effect_calls. split; simpl.
  - by intros code [= <-].
  - intros id code. by rewrite lookup_empty.
Qed.

(** X8.  In every world reached from the first render, the compile
    request that the timer posts carries the pragma followed by the
    source text the page holds at that moment, the latest one typed; the
    page is not changed by the posting, and the timer that fired does not
    fire again. *)
Theorem compile_request_carries_current_source (evs : list Event)
    (w w' : World) :
  run mounted evs = Some w →
  step w CompileTimerFired = Some w' →
  compileInFlight w'
  = <[compileIssued w := PRAGMA ++ solidityCode (page w)]>
      (compileInFlight w)
  ∧ page w' = page w
  ∧ compileTimer w' = None
  ∧ step w' CompileTimerFired = None.
Proof.
  intros Hrun.
  destruct (compile_lane_current_run evs mounted w
              compile_lane_current_mounted Hrun) as [Htimer _].
  simpl. destruct (compileTimer w) as [code|] eqn:Hcode; simpl; [|done].
  intros [= <-]. simpl. by rewrite (Htimer code eq_refl).
Qed.

Lemma handleFunctionCalls_start_page inv (p : Page) :
  solidityCode (handleFunctionCalls_start inv p).1 = solidityCode p
  ∧ functionCalls (handleFunctionCalls_start inv p).1 = functionCalls p.
Proof.
  unfold handleFunctionCalls_start. destruct (its_abi inv); [done|].
  by destruct (encode_calls _ _ _).
Qed.

Lemma step_keeps_text (w w' : World) (ev : Event) :
  is_user_event ev = false → step w ev = Some w' →
  solidityCode (page w') = solidityCode (page w)
  ∧ functionCalls (page w') = functionCalls (page w).
Proof.
  destruct ev as [text| |e index| |id outcome| |id outcome]; simpl;
    try done; intros _.
  - destruct (compileTimer w); simpl; [|done]. by intros [= <-].
  - destruct (compileInFlight w !! id); simpl; [|done].
    intros [= <-]. rewrite page_rerender. simpl.
    split; [apply compileSolidity_settled_source|].
    apply compileSolidity_settled_frame.
  - destruct (execTimer w) as [inv|]; simpl; [|done].
    pose proof (handleFunctionCalls_start_page inv (page w)) as Hpage.
    destruct (handleFunctionCalls_start inv (page w)) as [p [|e|body]];
      by intros [= <-].
  - destruct (execInFlight w !! id) as [inv|]; simpl; [|done].
    intros [= <-]. simpl.
    destruct (handleFunctionCalls_settled_cases inv outcome (page w))
      as [[output ->] | [e ->]]; done.
Qed.

(** X14.  Timers and responses never change what the user wrote: along
    any run of events none of which comes from the user, the source text
    and the call list stay as they were. *)
Theorem only_user_events_change_text (evs : list Event) (w w' : World) :
  forallb (fun ev => negb (is_user_event ev)) evs = true →
  run w evs = Some w' →
  solidityCode (page w') = solidityCode (page w)
  ∧ functionCalls (page w') = functionCalls (page w).
Proof.
  revert w; induction evs as [|ev evs IH]; intros w; simpl.
  - by intros _ [= <-].
  - intros [Hev Hevs]%andb_prop.
    destruct (step w ev) as [w1|] eqn:Hstep; simpl; [|done].
    intros Hrun. destruct (IH w1 Hevs Hrun) as [-> ->].
    apply (step_keeps_text w w1 ev); [by apply negb_true_iff | done].
Qed.

Lemma posted_requests_encoded_effect_calls (w : World) :
  posted_requests_encoded w → posted_requests_encoded (effect_calls w).
Proof. by destruct (effect_calls_cases w) as [-> | (_ & _ & ->)]. Qed.

Lemma posted_requests_encoded_rerender old replaced (w : World) :
  posted_requests_encoded w → posted_requests_encoded (rerender old replaced w).
Proof.
  intros Hw. unfold rerender.
  case_decide; case_match; try apply posted_requests_encoded_effect_calls;
    done.
Qed.

Lemma posted_requests_encoded_step (w w' : World) (ev : Event) :
  posted_requests_encoded w → step w ev = Some w' →
  posted_requests_encoded w'.
Proof.
  intros Hw.
  destruct ev as [text| |e index| |id outcome| |id outcome]; simpl.
  - intros [= <-]. by apply posted_requests_encoded_rerender.
  - intros [= <-]. by apply posted_requests_encoded_rerender.
  - destruct (handleFunctionCallsChange e index (page w)); simpl; [|done].
    intros [= <-]. by apply posted_requests_encoded_rerender.
  - destruct (compileTimer w); simpl; [|done]. by intros [= <-].
  - destruct (compileInFlight w !! id); simpl; [|done].
    intros [= <-]. by apply posted_requests_encoded_rerender.
  - destruct (execTimer w) as [inv|]; simpl; [|done].
    unfold handleFunctionCalls_start.
    destruct (its_abi inv) as [|item items] eqn:Habi; [by intros [= <-]|].
    destruct (encode_calls (item :: items) (parsedCalls inv) [])
      as [calls|e] eqn:Hcalls; intros [= <-]; [|exact Hw].
    intros id inv'. simpl.
    intros [[_ <-] | [_ Hold]]%lookup_insert_Some.
    + split; [by rewrite Habi|]. exists calls. by rewrite Habi.
    + by eapply Hw.
  - destruct (execInFlight w !! id) as [inv|]; simpl; [|done].
    intros [= <-] id' inv'. simpl.
    intros [_ Hold]%lookup_delete_Some. by eapply Hw.
Qed.

Lemma posted_requests_encoded_run (evs : list Event) (w w' : World) :
  posted_requests_encoded w → run w evs = Some w' →
  posted_requests_encoded w'.
Proof.
  revert w; induction evs as [|ev evs IH]; intros w Hw; simpl.
  - by intros [= <-].
  - destruct (step w ev) as [w1|] eqn:Hstep; simpl; [|done].
    apply IH. by eapply posted_requests_encoded_step.
Qed.

(** X15.  In every world reached from the first render, an execution
    request in flight was posted by an invocation with some bytecode, at
    least one parsed call and an interface that is not empty, and the
    encoder accepted every call of it. *)
Theorem request_in_flight_was_encoded (evs : list Event) (w : World)
    (id : nat) (inv : Invocation) :
  run mounted evs = Some w →
  execInFlight w !! id = Some inv →
  holds_work inv ∧ was_posted inv.
Proof.
  intros Hrun Hid. split.
  - destruct (lane_holds_work_run evs mounted w lane_holds_work_mounted Hrun)
      as [_ Hflight].
    by eapply Hflight.
  - assert (posted_requests_encoded w) as Hposted; [|by eapply Hposted].
    apply (posted_requests_encoded_run evs mounted w); [|done].
    apply posted_requests_encoded_effect_calls.
    intros id' inv'. simpl. by rewrite lookup_empty.
Qed.

End Invariants.

(** X8 at the world in which two edits preceded the first timer. *)
Lemma compile_request_carries_current_source_witness :
  run Sample.mounted0 [Typed (js "contract A {}"); Typed Sample.counter_source]
    = Some Cases.typed_world
  ∧ step Cases.typed_world CompileTimerFired = Some Cases.fired_world
  ∧ compileInFlight Cases.fired_world
    = <[compileIssued Cases.typed_world
        := PRAGMA ++ solidityCode (page Cases.typed_world)]>
        (compileInFlight Cases.typed_world)
  ∧ solidityCode (page Cases.typed_world) = Sample.counter_source.
Proof.
  assert (run Sample.mounted0
            [Typed (js "contract A {}"); Typed Sample.counter_source]
          = Some Cases.typed_world) as Hrun by (vm_compute; reflexivity).
  assert (step Cases.typed_world CompileTimerFired = Some Cases.fired_world)
    as Hstep by (vm_compute; reflexivity).
  split; [exact Hrun|]. split; [exact Hstep|].
  split; [|vm_compute; reflexivity].
  exact (proj1 (compile_request_carries_current_source
                  (H := Sample.externals) _ _ _ Hrun Hstep)).
Defined.

(** X14 at the world with the default calls waiting: their timer fires
    and the execution service is not reached. *)
Lemma only_user_events_change_text_witness :
  forallb (fun ev => negb (is_user_event (H := Sample.externals) ev))
    [ExecTimerFired; ExecSettled 0 (Throw (AxiosError None))] = true
  ∧ ∃ w',
      run Cases.compiled_world
        [ExecTimerFired; ExecSettled 0 (Throw (AxiosError None))] = Some w'
      ∧ solidityCode (page w') = solidityCode (page Cases.compiled_world)
      ∧ functionCalls (page w') = functionCalls (page Cases.compiled_world).
Proof.
  split; [reflexivity|]. eexists.
  assert (∀ P Q : Prop, P → (P → Q) → P ∧ Q) as Hcut by tauto.
  apply Hcut; [vm_compute; reflexivity|].
  intros Hrun.
  exact (only_user_events_change_text (H := Sample.externals)
           [ExecTimerFired; ExecSettled 0 (Throw (AxiosError None))]
           Cases.compiled_world _ eq_refl Hrun).
Defined.

(** X15 at the execution request of the default calls. *)
Lemma request_in_flight_was_encoded_witness :
  run Sample.mounted0 Cases.busy_events = Some Cases.busy_world
  ∧ execInFlight Cases.busy_world !! 0%nat
    = Some (Sample.invocation Cases.default_calls)
  ∧ holds_work (Sample.invocation Cases.default_calls)
  ∧ was_posted (Sample.invocation Cases.default_calls).
Proof.
  assert (run Sample.mounted0 Cases.busy_events = Some Cases.busy_world)
    as Hrun by (vm_compute; reflexivity).
  assert (execInFlight Cases.busy_world !! 0%nat
          = Some (Sample.invocation Cases.default_calls)) as Hid
    by (vm_compute; reflexivity).
  split; [exact Hrun|]. split; [exact Hid|].
  exact (request_in_flight_was_encoded (H := Sample.externals)
           Cases.busy_events Cases.busy_world 0
           (Sample.invocation Cases.default_calls) Hrun Hid).
Defined.

(** ** The execution lane *)

Section ExecutionLaneMore.
Context `{Externals}.

Lemma encode_calls_from abi parsedCalls calls :
  encode_calls abi parsedCalls calls
  = (encoded ← encode_calls abi parsedCalls []; mret (calls ++ encoded)).
Proof.
  revert calls; induction parsedCalls as [|call rest IH]; intros calls; simpl.
  - by rewrite app_nil_r.
  - destruct (encodeFunctionData abi (name call) (args call)) as [data|e];
      simpl; [|done].
    rewrite (IH (calls ++ _)), (IH [_]).
    destruct (encode_calls abi rest []) as [encoded|e]; simpl; [|done].
    by rewrite <- app_assoc.
Qed.

Lemma encodes_inv abi call enc data :
  encodes abi call enc →
  encodeFunctionData abi (name call) (args call) = Normal data →
  enc = mkEncoded data (js "0") ZERO_ADDRESS.
Proof.
  destruct enc as [d v c]. unfold encodes. simpl.
  intros (Hd & -> & ->) Hdata. rewrite Hd in Hdata. by injection Hdata as ->.
Qed.

Lemma encode_calls_Normal abi parsedCalls encoded :
  encode_calls abi parsedCalls [] = Normal encoded
  ↔ Forall2 (encodes abi) parsedCalls encoded.
Proof.
  revert encoded; induction parsedCalls as [|call rest IH]; intros encoded;
    simpl.
  - split; [by intros [= <-]; constructor | by intros ->%Forall2_nil_inv_l].
  - split.
    + destruct (encodeFunctionData abi (name call) (args call)) as [data|e]
        eqn:Hdata; simpl; [|done].
      rewrite encode_calls_from.
      destruct (encode_calls abi rest []) as [encs|e] eqn:Hrest; simpl;
        [|done].
      intros [= <-]. constructor; [done | by apply IH].
    + intros (enc & encs & Henc & Hencs & ->)%Forall2_cons_inv_l.
      destruct Henc as (Hdata & Hvalue & Hcaller).
      rewrite Hdata. simpl. rewrite encode_calls_from.
      apply IH in Hencs. rewrite Hencs. simpl.
      destruct enc as [d v c]. simpl in *. by subst.
Qed.

(** X9.  [handleFunctionCalls] posts a request exactly when the interface
    it captured is not empty and the encoder accepts every call.  The
    request then carries the captured bytecode and one entry for each
    parsed call, in order: the encoding of the call, the value 0 and the
    zero address as caller.  Up to there the page got one line on its
    console and nothing else. *)
Theorem posted_request_shape (inv : Invocation) (p p' : Page)
    (body : ExecuteRequest) :
  (handleFunctionCalls_start inv p = (p', Posted body)
   ↔ its_abi inv ≠ []
     ∧ p' = console_write (ConsoleLog (js "in handle function calls")) p
     ∧ request_bytecode body = its_bytecode inv
     ∧ Forall2 (encodes (its_abi inv)) (parsedCalls inv) (request_calls body))
  ∧ (handleFunctionCalls_start inv p = (p', Posted body) →
     length (request_calls body) = length (parsedCalls inv)).
Proof.
  assert (handleFunctionCalls_start inv p = (p', Posted body)
          ↔ its_abi inv ≠ []
            ∧ p' = console_write (ConsoleLog (js "in handle function calls")) p
            ∧ request_bytecode body = its_bytecode inv
            ∧ Forall2 (encodes (its_abi inv)) (parsedCalls inv)
                (request_calls body)) as Hiff.
  { unfold handleFunctionCalls_start.
    destruct (its_abi inv) as [|item items] eqn:Habi.
    { split; [done | by intros [? _]]. }
    rewrite <- Habi. split.
    - destruct (encode_calls (its_abi inv) (parsedCalls inv) [])
        as [calls|e] eqn:Hcalls; [|done].
      intros [= <- <-]. simpl. repeat split; [by rewrite Habi|].
      by apply encode_calls_Normal.
    - intros (_ & -> & Hbytecode & Hcalls).
      apply encode_calls_Normal in Hcalls. rewrite Hcalls.
      destruct body as [b c]. simpl in *. by subst. }
  split; [exact Hiff|].
  intros (_ & _ & _ & Hcalls)%Hiff. symmetry. by eapply Forall2_length.
Qed.

Lemma console_write_not_setResult entry output (p : Page) :
  console_write entry p ≠ setResult output p.
Proof.
  intros Heq. apply (f_equal console) in Heq. simpl in Heq.
  apply (f_equal length) in Heq. rewrite length_app in Heq. simpl in Heq. lia.
Qed.

Lemma decode_result_fields abi calls k (r : Response) item :
  decode_result abi calls k r = Normal item →
  ∃ call returned,
    calls !! k = Some call
    ∧ decodeFunctionResult abi (name call) (ExecutionResponse.result r)
      = Normal returned
    ∧ FunctionCallResult.call item = name call
    ∧ FunctionCallResult.response item = String_of <$> returned
    ∧ FunctionCallResult.gasUsed item = ExecutionResponse.gasUsed r
    ∧ FunctionCallResult.traces item = ExecutionResponse.traces r.
Proof.
  unfold decode_result. destruct (calls !! k) as [call|]; [|done].
  destruct (decodeFunctionResult abi (name call) (ExecutionResponse.result r))
    as [returned|] eqn:Hreturned; simpl; [|done].
  destruct (decode_logs abi (ExecutionResponse.logs r) []) as [decoded|];
    simpl; [|done].
  intros [= <-]. exists call, returned. by repeat split.
Qed.

(** X10.  When an execution response replaces the result list, the new
    list has one item for each response, and there are not more
    responses than parsed calls.  The item at an index is labelled with
    the name of the parsed call at that index and carries the gas used
    and the traces of the response at that index unchanged; its return
    value is what the library decoded of the return data, as a string,
    and is absent when the library decoded nothing. *)
Theorem stored_items_follow_responses (inv : Invocation)
    (results : list Response) (items : list CallResult) (p : Page) :
  handleFunctionCalls_settled inv (Normal results) p = setResult items p →
  length items = length results
  ∧ (length results ≤ length (parsedCalls inv))%nat
  ∧ ∀ k r item,
      results !! k = Some r → items !! k = Some item →
      ∃ call returned,
        parsedCalls inv !! k = Some call
        ∧ decodeFunctionResult (its_abi inv) (name call)
            (ExecutionResponse.result r) = Normal returned
        ∧ FunctionCallResult.call item = name call
        ∧ FunctionCallResult.response item = String_of <$> returned
        ∧ FunctionCallResult.gasUsed item = ExecutionResponse.gasUsed r
        ∧ FunctionCallResult.traces item = ExecutionResponse.traces r.
Proof.
  unfold handleFunctionCalls_settled. simpl.
  destruct (decode_results (its_abi inv) (parsedCalls inv) 0 results [])
    as [output|e] eqn:Hdecode; [|by intros ?%console_write_not_setResult].
  intros Heq. apply (f_equal result) in Heq. simpl in Heq. subst output.
  apply decode_results_Normal in Hdecode as [Hlen Hall].
  split; [done|]. split.
  - destruct (decide (length results ≤ length (parsedCalls inv))%nat)
      as [|Hmore]; [done|]. exfalso.
    destruct (lookup_lt_is_Some_2 results (length (parsedCalls inv)))
      as [r Hr]; [lia|].
    destruct (lookup_lt_is_Some_2 items (length (parsedCalls inv)))
      as [item Hitem]; [lia|].
    specialize (Hall _ _ _ Hr Hitem). simpl in Hall.
    apply decode_result_fields in Hall as (call & _ & Hcall & _).
    apply lookup_lt_Some in Hcall. lia.
  - intros k r item Hr Hitem. apply decode_result_fields.
    by apply (Hall k).
Qed.

(** X11.  When the execution service answers with more responses than
    there were parsed calls, nothing of the answer is stored: the result
    list stays and one error line is written to the console. *)
Theorem surplus_responses_drop_batch (inv : Invocation)
    (results : list Response) (p : Page) :
  (length (parsedCalls inv) < length results)%nat →
  ∃ e,
    handleFunctionCalls_settled inv (Normal results) p
    = console_write (ConsoleError (js "Execution error:") e) p.
Proof.
  intros Hmore.
  destruct (lookup_lt_is_Some_2 results (length (parsedCalls inv)) Hmore)
    as [r Hr].
  destruct (decode_results_Throw (its_abi inv) (parsedCalls inv) results 0
              (length (parsedCalls inv)) r TYPE_ERROR Hr) as [e He].
  { unfold decode_result. simpl.
    by rewrite (lookup_ge_None_2 (parsedCalls inv)). }
  exists e. unfold handleFunctionCalls_settled. simpl. by rewrite He.
Qed.

End ExecutionLaneMore.

(** X10 at the calls [set(1)] and [get()] of the sample service. *)
Lemma stored_items_follow_responses_witness :
  ∃ items,
    handleFunctionCalls_settled
      (Sample.invocation [Sample.set_call; Sample.get_call])
      (Normal [Sample.set_with Sample.known_log; Sample.returned_one])
      Sample.page0
    = setResult items Sample.page0
    ∧ length items = 2%nat.
Proof.
  eexists.
  assert (∀ P Q : Prop, P → (P → Q) → P ∧ Q) as Hcut by tauto.
  apply Hcut; [reflexivity|]. intros Hstored.
  exact (proj1 (stored_items_follow_responses (H := Sample.externals)
                  _ _ _ _ Hstored)).
Defined.

(** X11 at one call answered with two responses. *)
Lemma surplus_responses_drop_batch_witness :
  (length (parsedCalls (Sample.invocation [Sample.get_call]))
   < length [Sample.returned_one; Sample.returned_one])%nat
  ∧ ∃ e,
      handleFunctionCalls_settled (Sample.invocation [Sample.get_call])
        (Normal [Sample.returned_one; Sample.returned_one]) Sample.page0
      = console_write (ConsoleError (js "Execution error:") e) Sample.page0.
Proof.
  assert (length (parsedCalls (Sample.invocation [Sample.get_call]))
          < length [Sample.returned_one; Sample.returned_one])%nat as Hmore
    by (simpl; lia).
  split; [exact Hmore|].
  exact (surplus_responses_drop_batch (H := Sample.externals)
           (Sample.invocation [Sample.get_call])
           [Sample.returned_one; Sample.returned_one] Sample.page0 Hmore).
Defined.

(** ** The call parser, continued *)

Lemma first_other_char p (s : jsstring) c :
  last s = Some c → p c = false →
  ∃ a d b, s = a ++ d :: b ∧ Forall (fun ch => p ch = true) a ∧ p d = false.
Proof.
  induction s as [|x s IH]; [done|]. intros Hlast Hc.
  destruct (p x) eqn:Hx.
  - destruct s as [|y s'].
    { simpl in Hlast. injection Hlast as ->. congruence. }
    destruct (IH Hlast Hc) as (a & d & b & -> & Ha & Hd).
    exists (x :: a), d, b. repeat split; [|done]. by constructor.
  - by exists [], x, s.
Qed.

Lemma match_here_inside pre rest c :
  last pre = Some c → isWordChar c = false → LPAREN ∉ pre →
  match_here (pre ++ rest) = None.
Proof.
  intros Hlast Hc Hparen.
  destruct (first_other_char isWordChar pre c Hlast Hc)
    as (a & d & b & -> & Ha & Hd).
  unfold match_here. rewrite <- app_assoc. simpl.
  rewrite (span_cut _ _ _ _ Ha Hd). destruct a as [|x a]; [done|].
  destruct (d =? LPAREN) eqn:Hdp; [|done].
  apply N.eqb_eq in Hdp as ->. exfalso. apply Hparen.
  apply elem_of_app. right. apply elem_of_cons. by left.
Qed.

Lemma regex_match_skips pre rest :
  LPAREN ∉ pre →
  (∀ c, last pre = Some c → isWordChar c = false) →
  regex_match (pre ++ rest) = regex_match rest.
Proof.
  induction pre as [|x pre IH]; intros Hparen Hlast; [done|].
  destruct (last (x :: pre)) as [c|] eqn:Hc; [|by apply last_None in Hc].
  change (regex_match ((x :: pre) ++ rest))
    with (match match_here ((x :: pre) ++ rest) with
          | Some groups => Some groups
          | None => regex_match (pre ++ rest)
          end).
  rewrite (match_here_inside (x :: pre) rest c Hc (Hlast c eq_refl) Hparen).
  apply IH.
  - intros Hin. apply Hparen. apply elem_of_cons. by right.
  - intros c' Hc'. apply Hlast. destruct pre as [|y pre]; [done|].
    change (last (y :: pre) = Some c) in Hc. congruence.
Qed.

Lemma lastIndexOf_unique c (s x : jsstring) :
  c ∉ x → lastIndexOf c (s ++ c :: x) = Some (length s).
Proof.
  intros Hx.
  assert (lastIndexOf c x = None) as Hnone.
  { induction x as [|d x IH]; [done|]. simpl.
    rewrite IH by (intros Hin; apply Hx, elem_of_cons; by right).
    destruct (d =? c) eqn:Hd; [|done]. apply N.eqb_eq in Hd as ->.
    exfalso. apply Hx, elem_of_cons. by left. }
  induction s as [|d s IH]; simpl.
  - by rewrite Hnone, N.eqb_refl.
  - by rewrite IH.
Qed.

Lemma span_fst_elem p (s : jsstring) c : c ∈ (span p s).1 → c ∈ s.
Proof.
  destruct (span p s) as [a b] eqn:Hs. apply span_split in Hs as [-> _].
  simpl. intros Hin. apply elem_of_app. by left.
Qed.

Lemma match_here_exact name group2 post :
  name ≠ [] →
  Forall (fun c => isWordChar c = true) name →
  Forall (fun c => isDotChar c = true) group2 →
  RPAREN ∉ post →
  match_here (name ++ LPAREN :: group2 ++ RPAREN :: post)
  = Some (name, group2).
Proof.
  intros Hne Hword Hdot Hpost. unfold match_here.
  rewrite (span_cut _ _ _ _ Hword) by done.
  destruct name as [|c0 name']; [done|]. rewrite N.eqb_refl.
  rewrite (span_over _ _ _ Hdot). simpl.
  pose proof (span_fst_elem isDotChar post RPAREN) as Hsub.
  destruct (span isDotChar post) as [x y]. simpl in *.
  rewrite lastIndexOf_unique by (intros Hin; by apply Hpost, Hsub).
  by rewrite take_app_length.
Qed.

(** X16.  Text around a call does not matter as long as it cannot be
    taken for part of one: when what stands before the identifier holds
    no opening parenthesis and does not end in a word character, and what
    stands after the closing parenthesis holds no closing parenthesis,
    the line parses to the call. *)
Theorem call_with_text_around (pre name group2 post : jsstring) :
  LPAREN ∉ pre →
  (∀ c, last pre = Some c → isWordChar c = false) →
  name ≠ [] →
  Forall (fun c => isWordChar c = true) name →
  Forall (fun c => isDotChar c = true) group2 →
  RPAREN ∉ post →
  parse_line [] (pre ++ name ++ LPAREN :: group2 ++ RPAREN :: post)
  = [mkCall name (split_args group2)].
Proof.
  intros Hparen Hlast Hne Hword Hdot Hpost. unfold parse_line.
  rewrite regex_match_skips by done.
  destruct name as [|c0 name'] eqn:Hname; [done|]. rewrite <- Hname in *.
  assert (regex_match (name ++ LPAREN :: group2 ++ RPAREN :: post)
          = Some (name, group2)) as ->; [|done].
  rewrite Hname. simpl. rewrite <- Hname.
  change (c0 :: name' ++ LPAREN :: group2 ++ RPAREN :: post)
    with ((c0 :: name') ++ LPAREN :: group2 ++ RPAREN :: post).
  rewrite <- Hname. by rewrite match_here_exact.
Qed.

Lemma split_comma_no_comma a : COMMA ∉ a → split_comma a = [a].
Proof.
  induction a as [|c a IH]; [done|]. intros Hno. simpl.
  destruct (c =? COMMA) eqn:Hc.
  { apply N.eqb_eq in Hc as ->. exfalso. apply Hno, elem_of_cons. by left. }
  rewrite IH; [done|]. intros Hin. apply Hno, elem_of_cons. by right.
Qed.

Lemma split_comma_app a s :
  COMMA ∉ a → split_comma (a ++ COMMA :: s) = a :: split_comma s.
Proof.
  induction a as [|c a IH]; intros Hno; simpl.
  - done.
  - destruct (c =? COMMA) eqn:Hc.
    { apply N.eqb_eq in Hc as ->. exfalso. apply Hno, elem_of_cons. by left. }
    rewrite IH; [done|]. intros Hin. apply Hno, elem_of_cons. by right.
Qed.

Lemma split_comma_of_join (pieces : list jsstring) :
  pieces ≠ [] →
  Forall (fun piece => COMMA ∉ piece) pieces →
  split_comma (join [COMMA] pieces) = pieces.
Proof.
  intros Hne Hall. induction Hall as [|a rest Ha Hrest IH]; [done|].
  destruct rest as [|b rest]; simpl.
  - by apply split_comma_no_comma.
  - rewrite split_comma_app by done. f_equal. by apply IH.
Qed.

Lemma dropWhile_id p (s : jsstring) :
  (∀ c, head s = Some c → p c = false) → dropWhile p s = s.
Proof.
  destruct s as [|c s]; [done|]. intros Hhead. simpl.
  by rewrite (Hhead c eq_refl).
Qed.

Lemma trim_id arg : trimmed arg → trim arg = arg.
Proof.
  intros [Hhead Hlast]. unfold trim.
  rewrite (dropWhile_id _ arg) by done.
  rewrite dropWhile_id; [apply rev_involutive|].
  intros c. rewrite head_rev. apply Hlast.
Qed.

Lemma split_args_of_join (arguments : list jsstring) :
  Forall (fun arg => arg ≠ [] ∧ (COMMA ∉ arg) ∧ trimmed arg) arguments →
  split_args (join [COMMA] arguments) = arguments.
Proof.
  intros Hall. unfold split_args.
  destruct arguments as [|a rest] eqn:Hargs; [done|]. rewrite <- Hargs in *.
  rewrite split_comma_of_join.
  - clear Hargs. induction Hall as [|arg l (Hne & _ & Htrim) _ IH]; [done|].
    rewrite fmap_cons, (trim_id arg Htrim), filter_cons_True by (by destruct arg).
    by rewrite IH.
  - by rewrite Hargs.
  - eapply Forall_impl; [exact Hall|]. by intros arg (_ & ? & _).
Qed.

(** X17.  A well-formed call, written out as a line, parses back to
    itself; so every call the parser makes is the parse of its own
    text. *)
Theorem parse_of_call_text (c : ParsedCall) :
  well_formed_call c → parse_line [] (call_text c) = [c].
Proof.
  intros (Hne & Hword & Hargs). unfold call_text.
  rewrite parse_line_whole; [| done | done |].
  - rewrite split_args_of_join; [by destruct c|].
    eapply Forall_impl; [exact Hargs|]. by intros arg (? & ? & _ & ?).
  - apply Forall_forall. intros ch Hch.
    destruct (decide (ch = COMMA)) as [->|Hcomma]; [done|].
    assert (∀ l : list jsstring,
              Forall (fun arg => Forall (fun ch => isDotChar ch = true) arg) l →
              ch ∈ join [COMMA] l → isDotChar ch = true) as Hjoin.
    { induction l as [|x l IH]; [by intros _ ?%elem_of_nil|].
      intros [Hx Hl]%Forall_cons. destruct l as [|y l].
      - simpl. rewrite Forall_forall in Hx. apply Hx.
      - change (join [COMMA] (x :: y :: l))
          with (x ++ [COMMA] ++ join [COMMA] (y :: l)).
        rewrite !elem_of_app. intros [Hin | [Hin | Hin]].
        + rewrite Forall_forall in Hx. by apply Hx.
        + by apply list_elem_of_singleton in Hin.
        + by apply IH. }
    apply (Hjoin (args c)); [|done].
    eapply Forall_impl; [exact Hargs|]. by intros arg (_ & _ & ? & _).
Qed.

(** X16 at a call with blanks before it and a remark after it. *)
Lemma call_with_text_around_witness :
  parse_line [] (js "  set( 1 ); // store one")
  = [mkCall (js "set") [js "1"]].
Proof.
  apply (call_with_text_around (js "  ") (js "set") (js " 1 ")
           (js "; // store one")).
  - intros Hin. apply list_elem_of_In in Hin. simpl in Hin.
    repeat (destruct Hin as [Hin|Hin]; [discriminate Hin|]). exact Hin.
  - intros c [= <-]. reflexivity.
  - discriminate.
  - repeat constructor.
  - repeat constructor.
  - intros Hin. apply list_elem_of_In in Hin. simpl in Hin.
    repeat (destruct Hin as [Hin|Hin]; [discriminate Hin|]). exact Hin.
Defined.

(** X17 at the call [add(1, 2)]. *)
Lemma parse_of_call_text_witness :
  well_formed_call (mkCall (js "add") [js "1"; js "2"])
  ∧ parse_line [] (js "add(1,2)") = [mkCall (js "add") [js "1"; js "2"]].
Proof.
  assert (well_formed_call (mkCall (js "add") [js "1"; js "2"])) as Hwf.
  { split; [discriminate|]. split; [repeat constructor|].
    repeat constructor; simpl; try discriminate;
      try (intros ch [= <-]; reflexivity);
      intros Hin; apply list_elem_of_In in Hin; simpl in Hin;
      repeat (destruct Hin as [Hin|Hin]; [discriminate Hin|]); exact Hin. }
  split; [exact Hwf|].
  exact (parse_of_call_text (mkCall (js "add") [js "1"; js "2"]) Hwf).
Defined.

